(** * go-plex-client: the notification client and the timestamp helper

    A shallow embedding of [timestamp.go] and [websocket_client.go].

    - Module [strconv] and module [time] model the two functions of Go's
      standard library that [timestamp.go] calls on each side of the JSON
      encoding ([FormatInt]/[ParseInt], [Time.Unix]/[time.Unix]), with the
      64-bit wrap-around written out.
    - Module [Timestamp] is [timestamp.go].
    - Module [websocket] holds the constants and the two pure helpers of
      gorilla/websocket that the client uses.
    - Module [plex] is [websocket_client.go]: the dispatch table, the
      connection set-up, and the two goroutines as a labelled transition
      system whose labels are the answers of the environment (the peer, the
      ticker, the caller's interrupt channel, the clock). *)

From Stdlib Require Import ZArith Lia Bool List Ascii String.
From stdpp Require Import base tactics option list strings gmap.
Import ListNotations.

Local Open Scope string_scope.
Local Open Scope Z_scope.
Local Open Scope list_scope.

(* ===================================================================== *)
(** * Machine integers *)

Definition two64 : Z := 2 ^ 64.
Definition maxUint64 : Z := two64 - 1.
Definition minInt64 : Z := - 2 ^ 63.
Definition maxInt64 : Z := 2 ^ 63 - 1.

(** Conversion to [uint64]: reduction modulo 2^64. *)
Definition to_uint64 (z : Z) : Z := z mod two64.

(** Conversion to [int64]: the two's complement reading of the low 64 bits. *)
Definition to_int64 (z : Z) : Z := (z + 2 ^ 63) mod two64 - 2 ^ 63.

Definition is_int64 (z : Z) : Prop := minInt64 <= z <= maxInt64.

(* ===================================================================== *)
(** * strconv: decimal formatting and parsing of 64-bit integers *)

Module strconv.

(** The [Err] field of a [*NumError]. *)
Inductive NumError := ErrSyntax | ErrRange.

Definition is_digit (c : ascii) : bool :=
  let n := Z.of_nat (nat_of_ascii c) in (48 <=? n) && (n <=? 57).

Definition digit_val (c : ascii) : Z := Z.of_nat (nat_of_ascii c) - 48.

Definition digit_char (d : Z) : ascii := ascii_of_nat (Z.to_nat (48 + d)).

(** [formatBits] for base 10: the digits of [u] are produced from the least
    significant one, in front of what has been written already.  A uint64
    has at most 20 decimal digits, which bounds the loop. *)
Fixpoint formatBits_loop (fuel : nat) (u : Z) (a : string) : string :=
  match fuel with
  | O => a
  | S fuel' =>
      if u <? 10 then String (digit_char u) a
      else formatBits_loop fuel' (u / 10) (String (digit_char (u mod 10)) a)
  end.

Definition formatBits (u : Z) (neg : bool) : string :=
  let u := if neg then to_uint64 (- u) else u in
  let a := formatBits_loop 20 u "" in
  if neg then String "-" a else a.

(** [FormatInt(i, 10)]. *)
Definition FormatInt (i : Z) : string := formatBits (to_uint64 i) (i <? 0).

(** [ParseUint(s, 10, 64)]: the loop over the bytes of [s].  A letter is a
    digit of value at least 10 and is refused like any other byte that is
    not a decimal digit; the underscore is accepted for base 0 only. *)
Definition cutoff10 : Z := maxUint64 / 10 + 1.

Fixpoint ParseUint_loop (s : string) (n : Z) : Z * option NumError :=
  match s with
  | EmptyString => (n, None)
  | String c s' =>
      if negb (is_digit c) then (0, Some ErrSyntax)
      else if cutoff10 <=? n then (maxUint64, Some ErrRange)
      else
        let n := to_uint64 (n * 10) in
        let n1 := to_uint64 (n + digit_val c) in
        if (n1 <? n) || (maxUint64 <? n1) then (maxUint64, Some ErrRange)
        else ParseUint_loop s' n1
  end.

Definition ParseUint (s : string) : Z * option NumError :=
  match s with
  | EmptyString => (0, Some ErrSyntax)
  | _ => ParseUint_loop s 0
  end.

(** [ParseInt(s, 10, 64)]. *)
Definition ParseInt (s0 : string) : Z * option NumError :=
  match s0 with
  | EmptyString => (0, Some ErrSyntax)
  | String c rest =>
      let '(neg, s) :=
        if Ascii.eqb c "+" then (false, rest)
        else if Ascii.eqb c "-" then (true, rest)
        else (false, s0) in
      let '(un, err) := ParseUint s in
      match err with
      | Some ErrSyntax => (0, Some ErrSyntax)
      | _ =>
          let cutoff := 2 ^ 63 in
          if negb neg && (cutoff <=? un) then (cutoff - 1, Some ErrRange)
          else if neg && (cutoff <? un) then (- cutoff, Some ErrRange)
          else
            let n := to_int64 un in
            let n := if neg then to_int64 (- n) else n in
            (n, None)
      end
  end.

(** What the claim calls a decimal integer: an optional sign followed by
    at least one decimal digit and nothing else. *)
Fixpoint all_digits (s : string) : bool :=
  match s with
  | EmptyString => true
  | String c s' => is_digit c && all_digits s'
  end.

Definition nonempty_digits (s : string) : bool :=
  match s with
  | EmptyString => false
  | _ => all_digits s
  end.

Definition is_decimal_integer (s : string) : bool :=
  match s with
  | EmptyString => false
  | String c rest =>
      if Ascii.eqb c "+" || Ascii.eqb c "-" then nonempty_digits rest
      else nonempty_digits s
  end.

(** The number that a sequence of decimal digits denotes, read after the
    digits of [acc]. *)
Fixpoint digits_value (s : string) (acc : Z) : Z :=
  match s with
  | EmptyString => acc
  | String c s' => digits_value s' (acc * 10 + digit_val c)
  end.


End strconv.

(* ===================================================================== *)
(** * time: the part of [time.Time] that [timestamp.go] uses *)

Module time.

(** A [*Location]; [timestamp.go] never looks inside one. *)
Inductive Location := UTC | Local | Zone (name : string) (offset : Z).

(** [time.Time]: [wall] is a uint64 (flag bit, 33 bits of seconds, 30 bits
    of nanoseconds), [ext] an int64, [loc] the location. *)
Record Time := { wall : Z; ext : Z; loc : Location }.

Definition hasMonotonic : Z := Z.shiftl 1 63.
Definition nsecShift : Z := 30.
Definition secondsPerDay : Z := 86400.
Definition unixToInternal : Z :=
  (1969 * 365 + 1969 / 4 - 1969 / 100 + 1969 / 400) * secondsPerDay.
Definition internalToUnix : Z := - unixToInternal.
Definition wallToInternal : Z :=
  (1884 * 365 + 1884 / 4 - 1884 / 100 + 1884 / 400) * secondsPerDay.

(** [t.sec()]: seconds since the first of January of year 1. *)
Definition sec (t : Time) : Z :=
  if negb (Z.land (wall t) hasMonotonic =? 0)
  then to_int64 (wallToInternal
                 + Z.shiftr (to_uint64 (Z.shiftl (wall t) 1)) (nsecShift + 1))
  else ext t.

(** [t.Unix()]. *)
Definition Unix_of (t : Time) : Z := to_int64 (sec t + internalToUnix).

(** [time.Unix(sec, nsec)] for [0 <= nsec < 1e9], the only case used. *)
Definition Unix (sec nsec : Z) : Time :=
  {| wall := to_uint64 nsec; ext := to_int64 (sec + unixToInternal); loc := Local |}.

(** [time.Second], a [Duration] in nanoseconds. *)
Definition Second : Z := 1000000000.

Definition nsecMask : Z := Z.shiftl 1 30 - 1.

(** [t.nsec()]; the value is below 2^30, so that the conversion to int32
    changes nothing. *)
Definition nsec (t : Time) : Z := Z.land (wall t) nsecMask.

(** [t.stripMono()] *)
Definition stripMono (t : Time) : Time :=
  if negb (Z.land (wall t) hasMonotonic =? 0)
  then {| wall := Z.land (wall t) nsecMask; ext := sec t; loc := loc t |}
  else t.

(** [t.setLoc(loc)]; the nil location and [&utcLoc] are both [UTC]. *)
Definition setLoc (t : Time) (l : Location) : Time :=
  let t := stripMono t in
  {| wall := wall t; ext := ext t; loc := l |}.

(** [t.UTC()] *)
Definition Time_UTC (t : Time) : Time := setLoc t UTC.

End time.

(* ===================================================================== *)
(** * timestamp.go *)

Module Timestamp.

(** [type Timestamp time.Time] *)
Definition Timestamp := time.Time.

(** [MarshalJSON]: the error is always nil. *)
Definition MarshalJSON (t : Timestamp) : string * option strconv.NumError :=
  (strconv.FormatInt (time.Unix_of t), None).

(** [UnmarshalJSON] has a pointer receiver: the new value of the receiver
    is returned next to the error. *)
Definition UnmarshalJSON (t : Timestamp) (s : string)
  : Timestamp * option strconv.NumError :=
  let r := s in
  let '(q, err) := strconv.ParseInt r in
  match err with
  | Some e => (t, Some e)
  | None => (time.Unix q 0, None)
  end.

Definition Unix (t : Timestamp) : Z := time.Unix_of t.

(** [Time] *)
Definition Time (t : Timestamp) : time.Time := time.Time_UTC t.

End Timestamp.

(* ===================================================================== *)
(** * The Go values the client handles: errors, URLs, headers *)

(** An [error] value.  The client tells apart only a [*websocket.CloseError]
    (which carries the close code of the frame received) from every other
    error: URL syntax, dial, network, JSON decoding. *)
Inductive error :=
| CloseError (Code : Z) (Text : string)
| OtherError (msg : string).

Module url.

(** [url.URL], with the fields this code sets or reads; those it leaves
    at their zero value are [RawQuery] and [Fragment]. *)
Record URL := {
  Scheme : string;
  Host : string;
  Path : string;
  RawQuery : string;
  Fragment : string
}.

End url.

(** [http.Header] is [map[string][]string]. *)
Abbreviation Header := (gmap string (list string)).

Module websocket.

Definition TextMessage : Z := 1.
Definition CloseMessage : Z := 8.
Definition CloseNormalClosure : Z := 1000.
Definition CloseNoStatusReceived : Z := 1005.

(** [IsCloseError(err, codes...)] *)
Definition IsCloseError (err : error) (codes : list Z) : bool :=
  match err with
  | CloseError code _ => existsb (Z.eqb code) codes
  | OtherError _ => false
  end.

Definition byte_of (z : Z) : ascii := ascii_of_nat (Z.to_nat (z mod 256)).

(** [FormatCloseMessage(closeCode, text)]: the code as a big-endian
    uint16, then the text.  A [[]byte] is written as a string. *)
Definition FormatCloseMessage (closeCode : Z) (text : string) : string :=
  if closeCode =? CloseNoStatusReceived then ""
  else String (byte_of (Z.shiftr closeCode 8)) (String (byte_of closeCode) text).

End websocket.

(* ===================================================================== *)
(** * websocket_client.go *)

Module plex.

(** A [float64] field is only stored and handed on; it is kept as its
    64-bit pattern. *)
Definition float64 := Z.

Record TimelineEntry := {
  te_Identifier : string;
  te_ItemID : Z;
  te_MetadataState : string;
  te_SectionID : Z;
  te_State : Z;
  te_Title : string;
  te_Type : Z;
  te_UpdatedAt : Z
}.

Record Activity := {
  ac_Cancellable : bool;
  ac_Progress : Z;
  ac_Subtitle : string;
  ac_Title : string;
  ac_Type : string;
  ac_UserID : Z;
  ac_UUID : string
}.

Record ActivityNotification := {
  an_Activity : Activity;
  an_Event : string;
  an_UUID : string
}.

Record StatusNotification := {
  sn_Description : string;
  sn_NotificationName : string;
  sn_Title : string
}.

Record PlaySessionStateNotification := {
  ps_ClientIdentifier : string;
  ps_GUID : string;
  ps_Key : string;
  ps_PlayQueueItemID : Z;
  ps_PlayQueueID : Z;
  ps_RatingKey : string;
  ps_SessionKey : string;
  ps_State : string;
  ps_URL : string;
  ps_ViewOffset : Z;
  ps_TranscodeSession : string
}.

Record ReachabilityNotification := { rn_Reachability : bool }.

Record BackgroundProcessingQueueEventNotification := {
  bp_Event : string;
  bp_QueueID : Z
}.

Record TranscodeSession := {
  ts_AudioChannels : Z;
  ts_AudioCodec : string;
  ts_AudioDecision : string;
  ts_Complete : bool;
  ts_Container : string;
  ts_Context : string;
  ts_Duration : Z;
  ts_Key : string;
  ts_Progress : float64;
  ts_Protocol : string;
  ts_Remaining : Z;
  ts_SourceAudioCodec : string;
  ts_SourceVideoCodec : string;
  ts_Speed : float64;
  ts_Throttled : bool;
  ts_TranscodeHwRequested : bool;
  ts_VideoCodec : string;
  ts_VideoDecision : string
}.

Record Setting := {
  st_Advanced : bool;
  st_Default : bool;
  st_Group : string;
  st_Hidden : bool;
  st_ID : string;
  st_Label : string;
  st_Summary : string;
  st_Type : string;
  st_Value : string
}.

(** [NotificationContainer]: one slice per category of notification, the
    size, and the type tag the dispatch goes by. *)
Record NotificationContainer := {
  nc_TimelineEntry : list TimelineEntry;
  nc_ActivityNotification : list ActivityNotification;
  nc_StatusNotification : list StatusNotification;
  nc_PlaySessionStateNotification : list PlaySessionStateNotification;
  nc_ReachabilityNotification : list ReachabilityNotification;
  nc_BackgroundProcessingQueueEventNotification :
    list BackgroundProcessingQueueEventNotification;
  nc_TranscodeSession : list TranscodeSession;
  nc_Setting : list Setting;
  nc_Size : Z;
  Type_ : string
}.

(** [WebsocketNotification] embeds the container. *)
Record WebsocketNotification := { container : NotificationContainer }.

(** [Plex]: the fields [SubscribeToNotifications] reads, and the client
    identifier. *)
Record Plex := { URL : string; Token : string; ClientIdentifier : string }.

Section Client.

(** The caller's state, which the handlers and the two callbacks act on:
    a Go [func(n NotificationContainer)] returns nothing and works by
    side effect. *)
Context {World : Type}.

Definition Handler := NotificationContainer -> World -> World.

(** [NotificationEvents] *)
Record NotificationEvents := { events : gmap string Handler }.

(** [func(n NotificationContainer) {}] *)
Definition noop : Handler := fun _ w => w.

(** The keys of the map literal of [NewNotificationEvents], in the order
    of the source. *)
Definition recognized : list string :=
  [ "playing"; "progress"; "reachability"; "transcode.end";
    "transcodeSession.start"; "transcodeSession.end";
    "transcodeSession.update"; "preference"; "update.statechange";
    "activity"; "backgroundProcessingQueue"; "status"; "timeline";
    "account" ].

Definition NewNotificationEvents : NotificationEvents :=
  {| events := list_to_map (map (fun kind => (kind, noop)) recognized) |}.

(** The receiver is a pointer: the updated table is returned. *)
Definition OnPlaying (fn : Handler) (e : NotificationEvents) : NotificationEvents :=
  {| events := <["playing" := fn]> (events e) |}.

Definition OnTranscodeUpdate (fn : Handler) (e : NotificationEvents)
  : NotificationEvents :=
  {| events := <["transcodeSession.update" := fn]> (events e) |}.

(** ** What a session does, as a history *)

(** Who performs an action: [SubscribeToNotifications] itself before it
    returns, the first goroutine (the read loop) or the second one (the
    ticker loop). *)
Inductive Task := Caller | ReadTask | HeartbeatTask.

Inductive Event :=
| EvDial (urlStr : string) (requestHeader : Header)
| EvErrCb (err : error)
| EvDoneCb
| EvHandler (eventCallback : Handler) (n : NotificationContainer)
| EvPrintln (s : string) (err : option error)
| EvLogUnknown (kind : string)
| EvWriteMessage (messageType : Z) (data : string)
| EvCloseDone
| EvConnClose
| EvTickerStop.

(** Where the read goroutine stands: in its loop (at [c.ReadJSON]), or
    returned from the loop with the deferred [close(done)] still to run,
    then the deferred [c.Close()], then gone.  Deferred calls run last
    in, first out. *)
Inductive ReadPC := RLoop | RDeferCloseDone | RDeferConnClose | RExited.

(** Where the ticker goroutine stands: at the outer [select], at the
    inner [select] (entered when [interrupt] was received; the timer of
    [time.After(time.Second)] expires at [deadline]), or returned. *)
Inductive HeartbeatPC := HRunning | HClosing (deadline : Z) | HExited.

(** The state of a session: where each goroutine stands, whether the
    [done] channel and the connection have been closed, the time in
    nanoseconds since the goroutines were started, the time at which
    [interrupt] was received if it was, the caller's state, and the history
    of what was done, oldest first. *)
Record Session := {
  rd : ReadPC;
  hb : HeartbeatPC;
  done_closed : bool;
  conn_closed : bool;
  now : Z;
  interrupted : option Z;
  world : World;
  trace : list (Task * Event)
}.

Definition with_rd (pc : ReadPC) (s : Session) : Session :=
  {| rd := pc; hb := hb s; done_closed := done_closed s;
     conn_closed := conn_closed s; now := now s;
     interrupted := interrupted s; world := world s; trace := trace s |}.

Definition with_hb (pc : HeartbeatPC) (s : Session) : Session :=
  {| rd := rd s; hb := pc; done_closed := done_closed s;
     conn_closed := conn_closed s; now := now s;
     interrupted := interrupted s; world := world s; trace := trace s |}.

Definition with_world (w : World) (s : Session) : Session :=
  {| rd := rd s; hb := hb s; done_closed := done_closed s;
     conn_closed := conn_closed s; now := now s;
     interrupted := interrupted s; world := w; trace := trace s |}.

Definition with_now (t : Z) (s : Session) : Session :=
  {| rd := rd s; hb := hb s; done_closed := done_closed s;
     conn_closed := conn_closed s; now := t;
     interrupted := interrupted s; world := world s; trace := trace s |}.

Definition log (t : Task) (evs : list Event) (s : Session) : Session :=
  {| rd := rd s; hb := hb s; done_closed := done_closed s;
     conn_closed := conn_closed s; now := now s;
     interrupted := interrupted s; world := world s;
     trace := trace s ++ map (pair t) evs |}.

(** [close(done)] *)
Definition close_done (s : Session) : Session :=
  let s := log ReadTask [EvCloseDone] s in
  {| rd := rd s; hb := hb s; done_closed := true;
     conn_closed := conn_closed s; now := now s;
     interrupted := interrupted s; world := world s; trace := trace s |}.

(** [c.Close()] *)
Definition close_conn (t : Task) (s : Session) : Session :=
  let s := log t [EvConnClose] s in
  {| rd := rd s; hb := hb s; done_closed := done_closed s;
     conn_closed := true; now := now s;
     interrupted := interrupted s; world := world s; trace := trace s |}.

(** The moment [<-interrupt] is received. *)
Definition mark_interrupted (s : Session) : Session :=
  {| rd := rd s; hb := hb s; done_closed := done_closed s;
     conn_closed := conn_closed s; now := now s;
     interrupted := Some (now s); world := world s; trace := trace s |}.

(** ** SubscribeToNotifications *)

Section Subscribe.

(** The arguments of [SubscribeToNotifications] other than the
    [interrupt] channel, whose receive is a step of the system. *)
Variable events_ : NotificationEvents.
Variable errCb : error -> World -> World.
Variable doneCb : World -> World.

(** The library calls of the set-up: [url.Parse], the [String] method of a URL and
    [websocket.DefaultDialer.Dial] ([None] is a nil error). *)
Variable url_Parse : string -> url.URL + error.
Variable url_String : url.URL -> string.
Variable Dial : string -> Header -> option error.

Definition call_errCb (t : Task) (err : error) (s : Session) : Session :=
  with_world (errCb err (world s)) (log t [EvErrCb err] s).

Definition call_doneCb (t : Task) (s : Session) : Session :=
  with_world (doneCb (world s)) (log t [EvDoneCb] s).

Definition call_handler (eventCallback : Handler) (n : NotificationContainer)
           (s : Session) : Session :=
  with_world (eventCallback n (world s)) (log ReadTask [EvHandler eventCallback n] s).

(** One iteration of the read loop, from the return of [c.ReadJSON]
    (an error, or the decoded notification) to the next call of it or
    to the [return]. *)
Definition read_iteration (r : error + WebsocketNotification) (s : Session)
  : Session :=
  match r with
  | inl err =>
      if websocket.IsCloseError err [websocket.CloseNormalClosure] then
        with_rd RDeferCloseDone (call_doneCb ReadTask s)
      else
        with_rd RDeferCloseDone
          (call_errCb ReadTask err (log ReadTask [EvPrintln "read:" (Some err)] s))
  | inr notif =>
      match events events_ !! Type_ (container notif) with
      | None => log ReadTask [EvLogUnknown (Type_ (container notif))] s
      | Some eventCallback => call_handler eventCallback (container notif) s
      end
  end.

(** The deferred calls of the read goroutine, one per step. *)
Definition read_defer (s : Session) : option Session :=
  match rd s with
  | RDeferCloseDone => Some (with_rd RDeferConnClose (close_done s))
  | RDeferConnClose => Some (with_rd RExited (close_conn ReadTask s))
  | _ => None
  end.

(** [case t := <-ticker.C]: [payload] is [[]byte(t.String())], [werr]
    what [c.WriteMessage] returns. *)
Definition heartbeat_tick (payload : string) (werr : option error) (s : Session)
  : Session :=
  let s := log HeartbeatTask [EvWriteMessage websocket.TextMessage payload] s in
  match werr with
  | Some err => call_errCb HeartbeatTask err s
  | None => s
  end.

(** [case <-interrupt], up to the inner [select]; the error of the
    write is dropped. *)
Definition heartbeat_interrupt (werr : option error) (s : Session) : Session :=
  let s := log HeartbeatTask
             [EvWriteMessage websocket.CloseMessage
                (websocket.FormatCloseMessage websocket.CloseNormalClosure "")] s in
  with_hb (HClosing (now s + time.Second)) (mark_interrupted s).

(** Inner [select], [case <-done], then [return] and the deferred
    [ticker.Stop()]. *)
Definition heartbeat_done (s : Session) : Session :=
  with_hb HExited (log HeartbeatTask [EvTickerStop] s).

(** Inner [select], [case <-time.After(time.Second)]. *)
Definition heartbeat_timeout (s : Session) : Session :=
  let s := log HeartbeatTask [EvPrintln "WebSocket closing" None] s in
  let s := close_conn HeartbeatTask s in
  with_hb HExited (log HeartbeatTask [EvTickerStop] s).

(** ** The two goroutines as a transition system

    A label is what the environment contributes to a step: what
    [c.ReadJSON] returned; that the read goroutine runs its next deferred
    call; that the ticker fired, with the text written and what
    [c.WriteMessage] returned; that [interrupt] was received, with what the
    write of the close frame returned; that the inner [select] took the
    [done] case, or the timer case; that [d] nanoseconds pass.  An
    iteration of a loop is one step: the handlers and the callbacks are
    called from the goroutine and have returned when it goes on. *)
Inductive Label :=
| LRead (r : error + WebsocketNotification)
| LReadDefer
| LTick (payload : string) (werr : option error)
| LInterrupt (werr : option error)
| LDone
| LTimeout
| LAdvance (d : Z).

(** A step that is ready and does not wait for anybody: a deferred
    call of the read goroutine, a read on a connection that has been
    closed on this side (it returns at once, with what was buffered or with
    an error), the inner [select] once [done] is closed or the timer has
    expired.  Time does not pass while one is pending. *)
Definition urgent (s : Session) : bool :=
  match rd s with
  | RLoop => conn_closed s
  | RDeferCloseDone | RDeferConnClose => true
  | RExited => false
  end
  || match hb s with
     | HClosing deadline => done_closed s || (deadline <=? now s)
     | _ => false
     end.

Definition may_advance (d : Z) (s : Session) : bool :=
  (0 <? d) && negb (urgent s)
  && match hb s with
     | HClosing deadline => now s + d <=? deadline
     | _ => true
     end.

(** [step l s] is [None] when [l] cannot happen in [s]. *)
Definition step (l : Label) (s : Session) : option Session :=
  match l with
  | LRead r =>
      match rd s with
      | RLoop => Some (read_iteration r s)
      | _ => None
      end
  | LReadDefer => read_defer s
  | LTick payload werr =>
      match hb s with
      | HRunning => Some (heartbeat_tick payload werr s)
      | _ => None
      end
  | LInterrupt werr =>
      match hb s with
      | HRunning => Some (heartbeat_interrupt werr s)
      | _ => None
      end
  | LDone =>
      match hb s with
      | HClosing _ => if done_closed s then Some (heartbeat_done s) else None
      | _ => None
      end
  | LTimeout =>
      match hb s with
      | HClosing deadline =>
          if deadline <=? now s then Some (heartbeat_timeout s) else None
      | _ => None
      end
  | LAdvance d =>
      if may_advance d s then Some (with_now (now s + d) s) else None
  end.

Fixpoint run (ls : list Label) (s : Session) : option Session :=
  match ls with
  | [] => Some s
  | l :: ls' =>
      match step l s with
      | Some s' => run ls' s'
      | None => None
      end
  end.

(** What a call of [SubscribeToNotifications] leaves behind: it has
    returned without a [go] statement, or both goroutines run. *)
Inductive Outcome :=
| Returned (w : World) (tr : list (Task * Event))
| Spawned (s : Session).

Definition notificationsPath : string := "/:/websockets/notifications".

Definition SubscribeToNotifications (p : Plex) (w : World) : Outcome :=
  match url_Parse (URL p) with
  | inr err => Returned (errCb err w) [(Caller, EvErrCb err)]
  | inl plexURL =>
      let websocketURL :=
        {| url.Scheme := "wss"; url.Host := url.Host plexURL;
           url.Path := notificationsPath;
           url.RawQuery := ""; url.Fragment := "" |} in
      let headers : Header := {[ "X-Plex-Token" := [Token p] ]} in
      let dialled := (Caller, EvDial (url_String websocketURL) headers) in
      match Dial (url_String websocketURL) headers with
      | Some err => Returned (errCb err w) [dialled; (Caller, EvErrCb err)]
      | None =>
          Spawned {| rd := RLoop; hb := HRunning; done_closed := false;
                     conn_closed := false; now := 0; interrupted := None;
                     world := w; trace := [dialled] |}
      end
  end.

Definition outcome_trace (o : Outcome) : list (Task * Event) :=
  match o with
  | Returned _ tr => tr
  | Spawned s => trace s
  end.

End Subscribe.

(** ** Reading a history *)

Definition is_callback (ev : Event) : bool :=
  match ev with EvErrCb _ | EvDoneCb => true | _ => false end.

Definition is_errCb (ev : Event) : bool :=
  match ev with EvErrCb _ => true | _ => false end.

Definition is_doneCb (ev : Event) : bool :=
  match ev with EvDoneCb => true | _ => false end.

Definition is_conn_close (ev : Event) : bool :=
  match ev with EvConnClose => true | _ => false end.

(** The payloads of the close frames written, in order. *)
Fixpoint close_frames (tr : list (Task * Event)) : list string :=
  match tr with
  | [] => []
  | (_, EvWriteMessage mt data) :: tr' =>
      if mt =? websocket.CloseMessage then data :: close_frames tr'
      else close_frames tr'
  | _ :: tr' => close_frames tr'
  end.

(** The addresses dialled, with the headers sent. *)
Fixpoint dials (tr : list (Task * Event)) : list (string * Header) :=
  match tr with
  | [] => []
  | (_, EvDial urlStr requestHeader) :: tr' => (urlStr, requestHeader) :: dials tr'
  | _ :: tr' => dials tr'
  end.

Definition task_eqb (t t' : Task) : bool :=
  match t, t' with
  | Caller, Caller | ReadTask, ReadTask | HeartbeatTask, HeartbeatTask => true
  | _, _ => false
  end.

(** How many events satisfying [f] the history holds. *)
Definition count (f : Event -> bool) (tr : list (Task * Event)) : nat :=
  length (List.filter (fun x => f (snd x)) tr).

(** The same, for the events of one task. *)
Definition count_by (t : Task) (f : Event -> bool) (tr : list (Task * Event)) : nat :=
  length (List.filter (fun x => task_eqb t (fst x) && f (snd x)) tr).

(** The handler invocations of a history, in order. *)
Fixpoint handler_calls (tr : list (Task * Event))
  : list (Handler * NotificationContainer) :=
  match tr with
  | [] => []
  | (_, EvHandler h n) :: tr' => (h, n) :: handler_calls tr'
  | _ :: tr' => handler_calls tr'
  end.

(** The frames that the reads of a run returned, in order. *)
Fixpoint frames_of (ls : list Label) : list WebsocketNotification :=
  match ls with
  | [] => []
  | LRead (inr notif) :: ls' => notif :: frames_of ls'
  | _ :: ls' => frames_of ls'
  end.

(** The invocation, if any, that the dispatch table prescribes for a
    frame. *)
Definition dispatch (e : NotificationEvents) (notif : WebsocketNotification)
  : option (Handler * NotificationContainer) :=
  match events e !! Type_ (container notif) with
  | Some h => Some (h, container notif)
  | None => None
  end.

(** The writes of the ticker loop that returned an error. *)
Definition failed_tick (l : Label) : nat :=
  match l with
  | LTick _ (Some _) => 1%nat
  | _ => 0%nat
  end.


(** The expiries of the timer of the inner [select]. *)
Definition timeout (l : Label) : nat :=
  match l with
  | LTimeout => 1%nat
  | _ => 0%nat
  end.

Definition timeouts (ls : list Label) : nat :=
  list_sum (map timeout ls).

(** The caller's state after the handlers of a sequence of frames have
    run one after the other. *)
Definition handle (e : NotificationEvents) (w : World)
           (notif : WebsocketNotification) : World :=
  match dispatch e notif with
  | Some (h, n) => h n w
  | None => w
  end.

(** The read goroutine is blocked in [c.ReadJSON] on an open connection,
    or gone. *)
Definition read_quiet (s : Session) : Prop :=
  match rd s with
  | RLoop => conn_closed s = false
  | RExited => True
  | _ => False
  end.

(** ** The invariant of a session *)

Definition read_returned (pc : ReadPC) : nat :=
  match pc with RLoop => 0%nat | _ => 1%nat end.

Definition read_exited (pc : ReadPC) : nat :=
  match pc with RExited => 1%nat | _ => 0%nat end.

Definition done_is_closed (pc : ReadPC) : bool :=
  match pc with RDeferConnClose | RExited => true | _ => false end.

(** [done] is closed exactly when the read goroutine is past its first
    deferred call; the read goroutine has invoked a callback exactly
    when it has left its loop, and has closed the connection exactly
    when it is gone; the ticker goroutine never invokes [doneCb]; it has
    written the close frame exactly when it has received [interrupt],
    waits no longer than its timer, and leaves only when [done] is
    closed or after closing the connection itself. *)
Record session_inv (s : Session) : Prop := {
  inv_done : done_closed s = done_is_closed (rd s);
  inv_exit_closed : rd s = RExited -> conn_closed s = true;
  inv_read_callbacks :
    count_by ReadTask is_callback (trace s) = read_returned (rd s);
  inv_read_closes :
    count_by ReadTask is_conn_close (trace s) = read_exited (rd s);
  inv_doneCb :
    (count is_doneCb (trace s) <= count_by ReadTask is_callback (trace s))%nat;
  inv_hb :
    match hb s with
    | HRunning =>
        interrupted s = None /\ close_frames (trace s) = []
        /\ count_by HeartbeatTask is_conn_close (trace s) = 0%nat
    | HClosing deadline =>
        exists t0, interrupted s = Some t0 /\ deadline = t0 + time.Second
          /\ now s <= deadline
          /\ close_frames (trace s)
             = [websocket.FormatCloseMessage websocket.CloseNormalClosure ""]
          /\ count_by HeartbeatTask is_conn_close (trace s) = 0%nat
    | HExited =>
        exists t0, interrupted s = Some t0
          /\ (done_closed s = true \/ conn_closed s = true)
          /\ (t0 + time.Second < now s -> rd s = RExited)
          /\ close_frames (trace s)
             = [websocket.FormatCloseMessage websocket.CloseNormalClosure ""]
          /\ (count_by HeartbeatTask is_conn_close (trace s) <= 1)%nat
    end
}.

(** ** Tables made through the exported functions *)

(** A call of one of the two registration functions. *)
Inductive Registration :=
| RegPlaying (fn : Handler)
| RegTranscodeUpdate (fn : Handler).

Definition register (e : NotificationEvents) (r : Registration)
  : NotificationEvents :=
  match r with
  | RegPlaying fn => OnPlaying fn e
  | RegTranscodeUpdate fn => OnTranscodeUpdate fn e
  end.

(** [NewNotificationEvents()] followed by the calls of [rs], in order. *)
Definition configure (rs : list Registration) : NotificationEvents :=
  fold_left register rs NewNotificationEvents.

(** The handler given to the last call of [OnPlaying], if there was one. *)
Definition registered_playing (rs : list Registration) : Handler :=
  fold_left (fun h r => match r with RegPlaying fn => fn | _ => h end) rs noop.

Definition registered_transcode (rs : list Registration) : Handler :=
  fold_left (fun h r => match r with RegTranscodeUpdate fn => fn | _ => h end)
    rs noop.

(** ** More readings of a history and of a run *)

(** What the functions of the caller that a history names do to its state,
    one after the other. *)
Definition replay_event (errCb : error -> World -> World) (doneCb : World -> World)
           (w : World) (x : Task * Event) : World :=
  match snd x with
  | EvErrCb err => errCb err w
  | EvDoneCb => doneCb w
  | EvHandler eventCallback n => eventCallback n w
  | _ => w
  end.

Definition replay (errCb : error -> World -> World) (doneCb : World -> World)
           (tr : list (Task * Event)) (w : World) : World :=
  fold_left (replay_event errCb doneCb) tr w.

(** The callback invocations of one task, in order. *)
Definition callbacks_by (t : Task) (tr : list (Task * Event)) : list Event :=
  map snd (List.filter (fun x => task_eqb t (fst x) && is_callback (snd x)) tr).

(** What the reads of a run returned, in order. *)
Fixpoint read_results (ls : list Label) : list (error + WebsocketNotification) :=
  match ls with
  | [] => []
  | LRead r :: ls' => r :: read_results ls'
  | _ :: ls' => read_results ls'
  end.

(** The callback with which the read loop answers the error of a read. *)
Definition exit_callback (err : error) : Event :=
  if websocket.IsCloseError err [websocket.CloseNormalClosure] then EvDoneCb
  else EvErrCb err.

Definition tick (l : Label) : nat :=
  match l with LTick _ _ => 1%nat | _ => 0%nat end.


Definition interrupt (l : Label) : nat :=
  match l with LInterrupt _ => 1%nat | _ => 0%nat end.



Definition is_text_frame (ev : Event) : bool :=
  match ev with
  | EvWriteMessage mt _ => mt =? websocket.TextMessage
  | _ => false
  end.

Definition is_close_done (ev : Event) : bool :=
  match ev with EvCloseDone => true | _ => false end.

Definition is_ticker_stop (ev : Event) : bool :=
  match ev with EvTickerStop => true | _ => false end.

End Client.

(** ** FixedRating

    [type FixedRating float32], with its [UnmarshalJSON].  The floating-point
    types are kept abstract, and so are the three library calls: decoding
    into a [float32], decoding into a [string], and
    [strconv.ParseFloat(s, 32)]. *)
Section FixedRatingJSON.

Variable float32 float64 : Type.
Variable json_Unmarshal_float32 : string -> float32 + error.
Variable json_Unmarshal_string : string -> string + error.
Variable strconv_ParseFloat : string -> float64 * option error.
Variable float32_of_float64 : float64 -> float32.

Definition FixedRating := float32.

(** The receiver is a pointer: its new value is returned next to the
    error. *)
Definition FixedRating_UnmarshalJSON (value : FixedRating) (data : string)
  : FixedRating * option error :=
  match json_Unmarshal_float32 data with
  | inl isAlreadyFloat => (isAlreadyFloat, None)
  | inr _ =>
      match json_Unmarshal_string data with
      | inr err => (value, Some err)
      | inl isString =>
          let '(conv, _) := strconv_ParseFloat isString in
          (float32_of_float64 conv, None)
      end
  end.

End FixedRatingJSON.

End plex.

(* ===================================================================== *)
(** * A concrete caller

    A server at [http://localhost:32400], a caller that writes down which of
    its functions were called, and a handler registered for ["playing"]. *)

Module demo.

Import plex.

Definition World := list string.

Definition onPlaying : @Handler World := fun _ w => w ++ ["playing"].

Definition events_ : @NotificationEvents World :=
  OnPlaying onPlaying NewNotificationEvents.

Definition errCb (err : error) (w : World) : World := w ++ ["error"].

Definition doneCb (w : World) : World := w ++ ["done"].

(** What [url.Parse] answers on the addresses used here. *)
Definition url_Parse (rawURL : string) : url.URL + error :=
  if String.eqb rawURL "http://localhost:32400" then
    inl {| url.Scheme := "http"; url.Host := "localhost:32400"; url.Path := "";
           url.RawQuery := ""; url.Fragment := "" |}
  else if String.eqb rawURL "http://nowhere:32400/web" then
    inl {| url.Scheme := "http"; url.Host := "nowhere:32400"; url.Path := "/web";
           url.RawQuery := ""; url.Fragment := "" |}
  else inr (OtherError "parse error").

(** The rendering of a URL that has no query and no fragment. *)
Definition url_String (u : url.URL) : string :=
  String.append (url.Scheme u)
    (String.append "://" (String.append (url.Host u) (url.Path u))).

(** A server listening at that address only. *)
Definition Dial (urlStr : string) (requestHeader : Header) : option error :=
  if String.eqb urlStr "wss://localhost:32400/:/websockets/notifications"
  then None
  else Some (OtherError "dial tcp: connection refused").

Definition server : Plex :=
  {| URL := "http://localhost:32400"; Token := "token"; ClientIdentifier := "client" |}.

(** An address that does not parse, and one where nobody listens. *)
Definition malformed : Plex :=
  {| URL := "http://[::1"; Token := "token"; ClientIdentifier := "client" |}.

Definition unreachable : Plex :=
  {| URL := "http://nowhere:32400/web"; Token := "token";
     ClientIdentifier := "client" |}.

(** A frame that carries its type and no notification. *)
Definition frame (kind : string) : WebsocketNotification :=
  {| container :=
       {| nc_TimelineEntry := []; nc_ActivityNotification := [];
          nc_StatusNotification := []; nc_PlaySessionStateNotification := [];
          nc_ReachabilityNotification := [];
          nc_BackgroundProcessingQueueEventNotification := [];
          nc_TranscodeSession := []; nc_Setting := []; nc_Size := 0;
          Type_ := kind |} |}.

(** The session that [SubscribeToNotifications] starts for [server]. *)
Definition started : @Session World :=
  {| rd := RLoop; hb := HRunning; done_closed := false; conn_closed := false;
     now := 0; interrupted := None; world := [];
     trace := [(Caller,
                EvDial "wss://localhost:32400/:/websockets/notifications"
                       {[ "X-Plex-Token" := ["token"] ]})] |}.

Definition closed_conn : error := OtherError "use of closed network connection".

(** The connection breaks: the read fails and the read goroutine leaves,
    closing the connection; the ticker goes on, and each of its writes
    fails, until the caller interrupts. *)
Definition broken_connection : list Label :=
  [ LRead (inl (OtherError "unexpected EOF")); LReadDefer; LReadDefer;
    LAdvance time.Second; LTick "tick 1" (Some closed_conn);
    LAdvance time.Second; LTick "tick 2" (Some closed_conn);
    LInterrupt (Some closed_conn); LDone ].

(** The caller interrupts and the peer never answers the close frame: the
    timer expires, the ticker goroutine closes the connection, the read
    fails on the closed connection and the read goroutine leaves, closing
    it again. *)
Definition silent_peer : list Label :=
  [ LRead (inr (frame "playing")); LAdvance 500000000; LInterrupt None;
    LAdvance time.Second; LTimeout; LRead (inl closed_conn);
    LReadDefer; LReadDefer; LAdvance 1 ].

(** The caller interrupts and the peer answers the close frame. *)
Definition clean_shutdown : list Label :=
  [ LRead (inr (frame "playing")); LRead (inr (frame "unheard.of"));
    LAdvance time.Second; LTick "tick 1" None; LInterrupt None;
    LRead (inl (CloseError websocket.CloseNormalClosure ""));
    LReadDefer; LDone; LReadDefer ].

(** A table made with three calls of the registration functions. *)
Definition registrations : list (@Registration World) :=
  [ RegPlaying noop; RegTranscodeUpdate noop; RegPlaying onPlaying ].

(** Stand-ins for the JSON decoder and for [strconv.ParseFloat], on whole
    numbers: a number is a sequence of digits, a string is what stands
    between two quotation marks. *)
Definition quotation_mark : ascii := ascii_of_nat 34.

Definition decode_number (data : string) : Z + error :=
  if strconv.nonempty_digits data then inl (strconv.digits_value data 0)
  else inr (OtherError "json: cannot unmarshal into Go value of type float32").

Definition decode_string (data : string) : string + error :=
  match data with
  | String c rest =>
      let n := Nat.pred (String.length rest) in
      match String.get n rest with
      | Some q =>
          if Ascii.eqb c quotation_mark && Ascii.eqb q quotation_mark
          then inl (String.substring 0 n rest)
          else inr (OtherError "json: cannot unmarshal into Go value of type string")
      | None => inr (OtherError "unexpected end of JSON input")
      end
  | EmptyString => inr (OtherError "unexpected end of JSON input")
  end.

Definition parse_float (s : string) : Z * option error :=
  if strconv.nonempty_digits s then (strconv.digits_value s 0, None)
  else (0, Some (OtherError "strconv.ParseFloat: invalid syntax")).

(** The data [abc] between quotation marks. *)
Definition quoted_abc : string :=
  String quotation_mark (String.append "abc" (String quotation_mark "")).

End demo.

Abbreviation demo_run := (plex.run demo.events_ demo.errCb demo.doneCb).
Abbreviation demo_Subscribe :=
  (plex.SubscribeToNotifications demo.errCb demo.url_Parse demo.url_String
     demo.Dial).

(* ===================================================================== *)
(** * Facts about the machine integers *)

Lemma to_int64_range z : is_int64 (to_int64 z).
Proof.
  unfold is_int64, to_int64, minInt64, maxInt64, two64.
  pose proof (Z.mod_pos_bound (z + 2 ^ 63) (2 ^ 64) ltac:(lia)). lia.
Qed.

Lemma to_int64_id z : is_int64 z -> to_int64 z = z.
Proof.
  unfold is_int64, to_int64, minInt64, maxInt64, two64. intros H.
  rewrite Z.mod_small by lia. lia.
Qed.

Lemma to_int64_shift z k : to_int64 (z + k * two64) = to_int64 z.
Proof.
  unfold to_int64. replace (z + k * two64 + 2 ^ 63) with (z + 2 ^ 63 + k * two64) by ring.
  rewrite Z.mod_add by (unfold two64; lia). reflexivity.
Qed.

Lemma to_int64_eq z : exists k, to_int64 z = z + k * two64.
Proof.
  exists (- ((z + 2 ^ 63) / two64)). unfold to_int64.
  pose proof (Z.div_mod (z + 2 ^ 63) two64 ltac:(unfold two64; lia)). lia.
Qed.

Lemma to_int64_add_cancel q u : is_int64 q -> to_int64 (to_int64 (q + u) + - u) = q.
Proof.
  intros Hq. destruct (to_int64_eq (q + u)) as [k ->].
  replace (q + u + k * two64 + - u) with (q + k * two64) by ring.
  rewrite to_int64_shift. now apply to_int64_id.
Qed.

(* ===================================================================== *)
(** * Facts about strconv *)

Import strconv.

Lemma digit_char_is_digit d : 0 <= d < 10 -> is_digit (digit_char d) = true.
Proof.
  intros H. unfold is_digit, digit_char.
  rewrite nat_ascii_embedding by lia. rewrite Z2Nat.id by lia.
  apply andb_true_intro; split; apply Z.leb_le; lia.
Qed.

Lemma digit_val_char d : 0 <= d < 10 -> digit_val (digit_char d) = d.
Proof.
  intros H. unfold digit_val, digit_char.
  rewrite nat_ascii_embedding by lia. lia.
Qed.

Lemma ParseUint_loop_digit d s n :
  0 <= d < 10 -> 0 <= n -> n * 10 + d <= maxUint64 ->
  ParseUint_loop (String (digit_char d) s) n = ParseUint_loop s (n * 10 + d).
Proof.
  intros Hd Hn Hb. cbn [ParseUint_loop].
  rewrite digit_char_is_digit, digit_val_char by assumption. cbn [negb].
  unfold cutoff10, maxUint64, two64 in *.
  change (2 ^ 64 - 1) with 18446744073709551615 in *.
  change (18446744073709551615 / 10 + 1) with 1844674407370955162.
  destruct (Z.leb_spec 1844674407370955162 n); [lia|].
  unfold to_uint64, two64. change (2 ^ 64) with 18446744073709551616.
  rewrite (Z.mod_small (n * 10)) by lia.
  rewrite (Z.mod_small (n * 10 + d)) by lia.
  destruct (Z.ltb_spec (n * 10 + d) (n * 10)); [lia|].
  destruct (Z.ltb_spec 18446744073709551615 (n * 10 + d)); [lia|].
  reflexivity.
Qed.

Lemma ParseUint_loop_formatBits fuel : forall u a,
  0 <= u <= maxUint64 -> u < 10 ^ Z.of_nat fuel ->
  ParseUint_loop (formatBits_loop fuel u a) 0 = ParseUint_loop a u.
Proof.
  induction fuel as [|fuel IH]; intros u a Hu Hlt.
  - change (10 ^ Z.of_nat 0) with 1 in Hlt.
    assert (u = 0) by lia. subst. reflexivity.
  - cbn [formatBits_loop]. destruct (Z.ltb_spec u 10) as [Hs|Hs].
    + rewrite ParseUint_loop_digit by (unfold maxUint64, two64 in *; lia).
      reflexivity.
    + rewrite IH.
      * rewrite ParseUint_loop_digit.
        -- f_equal. pose proof (Z.div_mod u 10 ltac:(lia)). lia.
        -- apply Z.mod_pos_bound; lia.
        -- apply Z.div_pos; lia.
        -- pose proof (Z.div_mod u 10 ltac:(lia)). lia.
      * split; [apply Z.div_pos; lia|].
        pose proof (Z.div_mod u 10 ltac:(lia)).
        pose proof (Z.mod_pos_bound u 10 ltac:(lia)). lia.
      * rewrite Nat2Z.inj_succ, Z.pow_succ_r in Hlt by lia.
        apply Z.div_lt_upper_bound; lia.
Qed.

Lemma formatBits_loop_nonempty fuel u a :
  (0 < fuel)%nat -> formatBits_loop fuel u a <> "".
Proof.
  revert u a. induction fuel as [|fuel IH]; intros u a Hf; [lia|].
  cbn [formatBits_loop]. destruct (u <? 10); [discriminate|].
  destruct fuel as [|fuel']; [cbn; discriminate|]. apply IH. lia.
Qed.

Lemma formatBits_loop_head fuel : forall u a,
  0 <= u -> exists d s, 0 <= d < 10 /\ formatBits_loop (S fuel) u a = String (digit_char d) s.
Proof.
  induction fuel as [|fuel IH]; intros u a Hu.
  - cbn [formatBits_loop]. destruct (Z.ltb_spec u 10).
    + exists u, a. split; [lia|reflexivity].
    + exists (u mod 10), a. split; [apply Z.mod_pos_bound; lia|reflexivity].
  - remember (S fuel) as f. cbn [formatBits_loop]. destruct (Z.ltb_spec u 10).
    + exists u, a. split; [lia|reflexivity].
    + subst f. apply IH. apply Z.div_pos; lia.
Qed.

Lemma ParseUint_formatBits u :
  0 <= u <= maxUint64 -> ParseUint (formatBits_loop 20 u "") = (u, None).
Proof.
  intros Hu. destruct (formatBits_loop_head 19 u "" ltac:(lia)) as (d & s & Hd & E).
  unfold ParseUint. rewrite E. rewrite <- E.
  rewrite ParseUint_loop_formatBits; [reflexivity|assumption|].
  unfold maxUint64, two64 in Hu. change (10 ^ Z.of_nat 20) with 100000000000000000000.
  change (2 ^ 64 - 1) with 18446744073709551615 in Hu. lia.
Qed.

Lemma digit_char_not_sign d : 0 <= d < 10 ->
  Ascii.eqb (digit_char d) "+" = false /\ Ascii.eqb (digit_char d) "-" = false.
Proof.
  intros H. assert (d = 0 \/ d = 1 \/ d = 2 \/ d = 3 \/ d = 4 \/ d = 5 \/ d = 6 \/ d = 7 \/ d = 8 \/ d = 9) as Hc by lia.
  repeat (destruct Hc as [-> | Hc]; [split; reflexivity|]). subst. split; reflexivity.
Qed.

Lemma ParseInt_FormatInt i : is_int64 i -> ParseInt (FormatInt i) = (i, None).
Proof.
  intros Hi. unfold is_int64, minInt64, maxInt64 in Hi. unfold FormatInt, formatBits.
  change (2 ^ 63) with 9223372036854775808 in Hi.
  destruct (Z.ltb_spec i 0) as [Hneg|Hpos].
  - assert (Hu : to_uint64 (- to_uint64 i) = - i).
    { unfold to_uint64, two64. change (2 ^ 64) with 18446744073709551616.
      replace (i mod 18446744073709551616) with (i + 18446744073709551616).
      2:{ apply Z.mod_unique with (-1); lia. }
      symmetry. apply Z.mod_unique with (-1); lia. }
    rewrite Hu. unfold ParseInt. cbn [Ascii.eqb Bool.eqb].
    rewrite ParseUint_formatBits
      by (unfold maxUint64, two64; change (2 ^ 64) with 18446744073709551616; lia).
    cbn [negb andb]. change (2 ^ 63) with 9223372036854775808.
    destruct (Z.ltb_spec 9223372036854775808 (- i)); [lia|].
    f_equal. unfold to_int64, two64.
    change (2 ^ 63) with 9223372036854775808. change (2 ^ 64) with 18446744073709551616.
    destruct (Z.eq_dec i (-9223372036854775808)) as [->|Hne]; [reflexivity|].
    rewrite (Z.mod_small (- i + 9223372036854775808)) by lia.
    replace (- (- i + 9223372036854775808 - 9223372036854775808) + 9223372036854775808)
      with (i + 9223372036854775808) by ring.
    rewrite Z.mod_small by lia. lia.
  - assert (Hu : to_uint64 i = i).
    { unfold to_uint64, two64. change (2 ^ 64) with 18446744073709551616.
      apply Z.mod_small; lia. }
    rewrite Hu.
    destruct (formatBits_loop_head 19 i "" ltac:(lia)) as (d & s & Hd & E).
    unfold ParseInt. rewrite E.
    destruct (digit_char_not_sign d Hd) as [-> ->]. rewrite <- E.
    rewrite ParseUint_formatBits
      by (unfold maxUint64, two64; change (2 ^ 64) with 18446744073709551616; lia).
    cbn [negb andb]. change (2 ^ 63) with 9223372036854775808.
    destruct (Z.leb_spec 9223372036854775808 i); [lia|].
    f_equal. apply to_int64_id. unfold is_int64, minInt64, maxInt64.
    change (2 ^ 63) with 9223372036854775808. lia.
Qed.

(* ===================================================================== *)
(** * Facts about the session *)

Import plex.

Section SessionFacts.

Context {World : Type}.
Variable events_ : @NotificationEvents World.
Variable errCb : error -> World -> World.
Variable doneCb : World -> World.
Variable url_Parse : string -> url.URL + error.
Variable url_String : url.URL -> string.
Variable Dial : string -> Header -> option error.

Local Abbreviation step := (step events_ errCb doneCb).
Local Abbreviation run := (run events_ errCb doneCb).
Local Abbreviation Subscribe := (SubscribeToNotifications errCb url_Parse url_String Dial).

Lemma close_frames_app (tr1 tr2 : list (Task * @Event World)) :
  close_frames (tr1 ++ tr2) = close_frames tr1 ++ close_frames tr2.
Proof.
  induction tr1 as [|[t ev] tr1 IH]; [reflexivity|].
  cbn [app close_frames]. destruct ev; try assumption.
  destruct (_ =? _); [cbn [app]; f_equal|]; assumption.
Qed.

Lemma handler_calls_app (tr1 tr2 : list (Task * @Event World)) :
  handler_calls (tr1 ++ tr2) = handler_calls tr1 ++ handler_calls tr2.
Proof.
  induction tr1 as [|[t ev] tr1 IH]; [reflexivity|].
  cbn [app handler_calls]. destruct ev; try assumption.
  cbn [app]; f_equal; assumption.
Qed.

Lemma run_app ls1 ls2 s :
  run (ls1 ++ ls2) s = match run ls1 s with Some s' => run ls2 s' | None => None end.
Proof.
  revert s. induction ls1 as [|l ls1 IH]; intros s; [reflexivity|].
  cbn [app plex.run]. destruct (step l s); [apply IH|reflexivity].
Qed.

Ltac unfold_step :=
  unfold plex.step, read_defer, read_iteration, heartbeat_tick, heartbeat_interrupt,
    heartbeat_done, heartbeat_timeout, call_errCb, call_doneCb, call_handler,
    close_done, close_conn, mark_interrupted, with_rd, with_hb, with_world,
    with_now, log in *.

Ltac fields :=
  cbn [rd hb done_closed conn_closed now interrupted world trace] in *.

Ltac counts :=
  unfold count, count_by in *; fields; cbn [map] in *;
  rewrite ?List.filter_app, ?length_app, ?close_frames_app, ?handler_calls_app;
  cbn [List.filter length fst snd task_eqb andb is_callback is_doneCb is_errCb
       is_conn_close close_frames handler_calls read_returned read_exited
       done_is_closed Z.eqb websocket.CloseMessage websocket.TextMessage
       Pos.eqb failed_tick timeout] in *;
  rewrite ?app_nil_r in *.

Ltac split_all :=
  repeat match goal with
    | H : exists _, _ |- _ => destruct H
    | H : _ /\ _ |- _ => destruct H
    end.

Ltac finish :=
  split_all; subst; unfold time.Second in *;
  try match goal with |- exists _, _ => eexists end;
  repeat match goal with |- _ /\ _ => split end;
  try match goal with
    | H : close_frames ?t = _ |- context [close_frames ?t] => rewrite H
    end;
  try first [ eassumption | reflexivity | discriminate | lia
            | intros; first [ discriminate | lia | congruence ]
            | left; first [ eassumption | reflexivity ]
            | right; first [ eassumption | reflexivity ]
            | intros;
              repeat match goal with
                | H : ?a -> _, H' : ?a |- _ => specialize (H H')
                end;
              first [ discriminate | congruence | lia ] ].

(** Every step keeps the invariant. *)
Lemma step_inv l s s' : session_inv s -> step l s = Some s' -> session_inv s'.
Proof.
  intros [I1 I2 I3 I4 I5 I7] Hs.
  destruct s as [rd0 hb0 dn cc nw intr w tr]. fields.
  destruct l as [r| |payload werr|werr| | |d]; unfold_step; fields.
  - destruct rd0; try discriminate.
    injection Hs as <-.
    destruct r as [err|notif];
      [destruct (websocket.IsCloseError _ _)|destruct (events events_ !! _)].
    all: split; counts; try (destruct hb0); finish.
  - destruct rd0; try discriminate; injection Hs as <-.
    all: split; counts; try (destruct hb0); finish.
  - destruct hb0; try discriminate; injection Hs as <-.
    destruct werr; split; counts; finish.
  - destruct hb0; try discriminate; injection Hs as <-.
    split; counts; finish.
  - destruct hb0; try discriminate. destruct dn eqn:Edn; try discriminate.
    injection Hs as <-. split; counts; finish.
  - destruct hb0 as [|deadline|]; try discriminate.
    destruct (Z.leb_spec deadline nw); try discriminate. injection Hs as <-.
    split; counts; finish.
  - destruct (may_advance _ _) eqn:Eadv; try discriminate. injection Hs as <-.
    unfold may_advance, urgent in Eadv; fields.
    apply andb_prop in Eadv as [Eadv Hdl]. apply andb_prop in Eadv as [Hd Hurg].
    apply Z.ltb_lt in Hd. apply negb_true_iff in Hurg.
    split; counts; try (destruct hb0 as [|deadline|]); finish.
    all: try (apply Z.leb_le in Hdl; lia).
    destruct rd0, cc; cbn in Hurg; try discriminate; try reflexivity.
    all: match goal with H : _ \/ _ |- _ => destruct H; discriminate end.
Qed.

Lemma run_inv ls : forall s s', session_inv s -> run ls s = Some s' -> session_inv s'.
Proof.
  induction ls as [|l ls IH]; intros s s' Hinv Hrun; cbn [plex.run] in Hrun.
  - now injection Hrun as <-.
  - destruct (step l s) as [s1|] eqn:Hs; [|discriminate].
    eapply IH; [eapply step_inv|]; eassumption.
Qed.

(** The session that [SubscribeToNotifications] starts satisfies it. *)
Lemma spawned_inv p w s0 : Subscribe p w = Spawned s0 -> session_inv s0.
Proof.
  unfold SubscribeToNotifications. destruct (url_Parse _); [|discriminate].
  destruct (Dial _ _); [discriminate|]. intros [= <-].
  split; cbn; auto; try discriminate.
Qed.

Lemma spawned_start p w s0 :
  Subscribe p w = Spawned s0 ->
  rd s0 = RLoop /\ conn_closed s0 = false /\ world s0 = w
  /\ exists urlStr requestHeader, trace s0 = [(Caller, EvDial urlStr requestHeader)].
Proof.
  unfold SubscribeToNotifications. destruct (url_Parse _); [|discriminate].
  destruct (Dial _ _); [discriminate|]. intros [= <-]. cbn. eauto 6.
Qed.



(** What one step adds to the handler invocations. *)
Lemma step_handler_calls l s s' :
  step l s = Some s' ->
  handler_calls (trace s')
  = handler_calls (trace s) ++ omap (dispatch events_) (frames_of [l]).
Proof.
  intros Hs. destruct s as [rd0 hb0 dn cc nw intr w tr]. fields.
  destruct l as [r| |payload werr|werr| | |d]; unfold_step; fields.
  - destruct rd0; try discriminate.
    injection Hs as <-.
    destruct r as [err|notif]; cbn [frames_of omap list_omap]; unfold dispatch;
      [destruct (websocket.IsCloseError _ _)|destruct (events events_ !! _)];
      counts; reflexivity.
  - destruct rd0; try discriminate; injection Hs as <-; counts; reflexivity.
  - destruct hb0; try discriminate; injection Hs as <-.
    destruct werr; counts; reflexivity.
  - destruct hb0; try discriminate; injection Hs as <-. counts; reflexivity.
  - destruct hb0; try discriminate. destruct dn; try discriminate.
    injection Hs as <-. counts; reflexivity.
  - destruct hb0 as [|deadline|]; try discriminate.
    destruct (deadline <=? nw); try discriminate. injection Hs as <-.
    counts; reflexivity.
  - destruct (may_advance _ _); try discriminate. injection Hs as <-.
    counts; reflexivity.
Qed.

Lemma frames_of_cons l ls : frames_of (l :: ls) = frames_of [l] ++ frames_of ls.
Proof. destruct l as [[|]| | | | | |]; reflexivity. Qed.

(** What one step adds to the number of times the connection is closed. *)
Lemma step_closes l s s' :
  step l s = Some s' ->
  (count is_conn_close (trace s') + read_exited (rd s)
   = count is_conn_close (trace s) + read_exited (rd s') + timeout l)%nat
  /\ count_by HeartbeatTask is_conn_close (trace s')
     = (count_by HeartbeatTask is_conn_close (trace s) + timeout l)%nat.
Proof.
  intros Hs. destruct s as [rd0 hb0 dn cc nw intr w tr]. fields.
  destruct l as [r| |payload werr|werr| | |d]; unfold_step; fields.
  - destruct rd0; try discriminate.
    injection Hs as <-.
    destruct r as [err|notif];
      [destruct (websocket.IsCloseError _ _)|destruct (events events_ !! _)];
      counts; lia.
  - destruct rd0; try discriminate; injection Hs as <-; counts; lia.
  - destruct hb0; try discriminate; injection Hs as <-.
    destruct werr; counts; lia.
  - destruct hb0; try discriminate; injection Hs as <-. counts; lia.
  - destruct hb0; try discriminate. destruct dn; try discriminate.
    injection Hs as <-. counts; lia.
  - destruct hb0 as [|deadline|]; try discriminate.
    destruct (deadline <=? nw); try discriminate. injection Hs as <-. counts; lia.
  - destruct (may_advance _ _); try discriminate. injection Hs as <-. counts; lia.
Qed.

Lemma run_closes ls : forall s s',
  run ls s = Some s' ->
  (count is_conn_close (trace s') + read_exited (rd s)
   = count is_conn_close (trace s) + read_exited (rd s') + timeouts ls)%nat
  /\ count_by HeartbeatTask is_conn_close (trace s')
     = (count_by HeartbeatTask is_conn_close (trace s) + timeouts ls)%nat.
Proof.
  induction ls as [|l ls IH]; intros s s' Hrun; cbn [plex.run] in Hrun.
  - injection Hrun as <-. unfold timeouts. cbn. lia.
  - destruct (step l s) as [s1|] eqn:Hs; [|discriminate].
    pose proof (step_closes _ _ _ Hs). pose proof (IH _ _ Hrun).
    unfold timeouts in *. cbn [map].
    change (list_sum (timeout l :: map timeout ls))
      with (timeout l + list_sum (map timeout ls))%nat.
    lia.
Qed.

Lemma run_handler_calls ls : forall s s',
  run ls s = Some s' ->
  handler_calls (trace s')
  = handler_calls (trace s) ++ omap (dispatch events_) (frames_of ls).
Proof.
  induction ls as [|l ls IH]; intros s s' Hrun; cbn [plex.run] in Hrun.
  - injection Hrun as <-. cbn. now rewrite app_nil_r.
  - destruct (step l s) as [s1|] eqn:Hs; [|discriminate].
    rewrite (IH _ _ Hrun), (step_handler_calls _ _ _ Hs), (frames_of_cons l ls).
    rewrite omap_app, app_assoc. reflexivity.
Qed.

(** A run that only reads frames never blocks; the handlers act on the
    caller's state one after the other. *)
Lemma run_frames frames : forall s,
  rd s = RLoop ->
  exists s', run (map (fun notif => LRead (inr notif)) frames) s = Some s'
             /\ world s' = fold_left (handle events_) frames (world s)
             /\ rd s' = RLoop.
Proof.
  induction frames as [|notif frames IH]; intros s Hrd.
  - exists s. cbn. auto.
  - cbn [map plex.run plex.step]. rewrite Hrd.
    destruct (IH (read_iteration events_ errCb doneCb (inr notif) s))
      as (s' & Hrun & Hw & Hrd').
    + unfold read_iteration. destruct (events events_ !! _); assumption.
    + exists s'. split; [assumption|]. split; [|assumption].
      rewrite Hw. cbn [fold_left]. f_equal.
      unfold read_iteration, handle, dispatch.
      destruct (events events_ !! _); reflexivity.
Qed.

(** The read goroutine can always be run until it waits or is gone,
    without time passing and without a step of the other goroutine. *)
Lemma read_settles s :
  exists ls s', run ls s = Some s' /\ read_quiet s' /\ now s' = now s
                /\ hb s' = hb s
                /\ (done_closed s = true -> done_closed s' = true).
Proof.
  destruct s as [rd0 hb0 dn cc nw intr w tr].
  destruct rd0.
  - destruct cc.
    + exists [LRead (inl (OtherError "")); LReadDefer; LReadDefer]. eexists.
      split; [reflexivity|]. cbn. auto.
    + exists []. eexists. split; [reflexivity|]. cbn. auto.
  - exists [LReadDefer; LReadDefer]. eexists. split; [reflexivity|]. cbn. auto.
  - exists [LReadDefer]. eexists. split; [reflexivity|]. cbn. auto.
  - exists []. eexists. split; [reflexivity|]. cbn. auto.
Qed.

Lemma advance_quiet s :
  read_quiet s -> hb s = HRunning \/ hb s = HExited ->
  exists s', step (LAdvance 1) s = Some s' /\ now s < now s'.
Proof.
  intros Hq Hhb. unfold plex.step, may_advance, urgent.
  unfold read_quiet in Hq.
  destruct (rd s); try contradiction; rewrite ?Hq;
    destruct Hhb as [-> | ->]; cbn; eexists; (split; [reflexivity|cbn; lia]).
Qed.

(** No state stops the clock: from every state some run lets time pass. *)
Lemma time_can_pass s : exists ls s', run ls s = Some s' /\ now s < now s'.
Proof.
  destruct (read_settles s) as (ls1 & s1 & Hrun1 & Hq1 & Hnow1 & Hhb1 & Hdn1).
  destruct (hb s1) as [|deadline|] eqn:Ehb.
  - destruct (advance_quiet s1 Hq1 (or_introl Ehb)) as (s2 & Hs2 & Hlt).
    exists (ls1 ++ [LAdvance 1]), s2. rewrite run_app, Hrun1. cbn [plex.run].
    rewrite Hs2. split; [reflexivity|lia].
  - destruct (done_closed s1) eqn:Edn.
    + assert (Hs2 : step LDone s1 = Some (heartbeat_done s1))
        by (unfold plex.step; now rewrite Ehb, Edn).
      destruct (advance_quiet (heartbeat_done s1)) as (s3 & Hs3 & Hlt);
        [exact Hq1|now right|].
      exists (ls1 ++ [LDone; LAdvance 1]), s3. rewrite run_app, Hrun1.
      cbn [plex.run]. rewrite Hs2, Hs3. split; [reflexivity|].
      cbn in Hlt. lia.
    + destruct (Z.leb_spec deadline (now s1)) as [Hle|Hgt].
      * assert (Hs2 : step LTimeout s1 = Some (heartbeat_timeout s1)).
        { unfold plex.step. rewrite Ehb.
          destruct (Z.leb_spec deadline (now s1)); [reflexivity|lia]. }
        destruct (read_settles (heartbeat_timeout s1))
          as (ls3 & s3 & Hrun3 & Hq3 & Hnow3 & Hhb3 & _).
        destruct (advance_quiet s3 Hq3) as (s4 & Hs4 & Hlt);
          [right; rewrite Hhb3; reflexivity|].
        exists (ls1 ++ LTimeout :: ls3 ++ [LAdvance 1]), s4.
        rewrite run_app, Hrun1. cbn [plex.run]. rewrite Hs2, run_app, Hrun3.
        cbn [plex.run]. rewrite Hs4. split; [reflexivity|].
        cbn in Hnow3. lia.
      * assert (Hs2 : step (LAdvance 1) s1 = Some (with_now (now s1 + 1) s1)).
        { unfold plex.step, may_advance, urgent. rewrite Ehb, Edn.
          unfold read_quiet in Hq1.
          destruct (rd s1); try contradiction; rewrite ?Hq1; cbn;
            destruct (Z.leb_spec deadline (now s1)); try lia;
            destruct (Z.leb_spec (now s1 + 1) deadline); try lia; reflexivity. }
        exists (ls1 ++ [LAdvance 1]), (with_now (now s1 + 1) s1).
        rewrite run_app, Hrun1. cbn [plex.run]. rewrite Hs2.
        split; [reflexivity|]. cbn. lia.
  - destruct (advance_quiet s1 Hq1 (or_intror Ehb)) as (s2 & Hs2 & Hlt).
    exists (ls1 ++ [LAdvance 1]), s2. rewrite run_app, Hrun1. cbn [plex.run].
    rewrite Hs2. split; [reflexivity|lia].
Qed.

(* ------------------------------------------------------------------- *)
(** ** The claims about a session *)


(** C2 (amended).  In every run of a session, the read goroutine closes
    the connection exactly once, as the last thing it does (its deferred
    [c.Close()]), and the ticker goroutine closes it only when the timer
    of its inner [select] expires, at most once, after which it is gone.
    The number of closes is the one of the read goroutine plus the number
    of timer expiries, so both goroutines close the connection when the
    timer wins. *)
Theorem closes_of_a_session p w s0 ls s' :
  Subscribe p w = Spawned s0 ->
  run ls s0 = Some s' ->
  count_by ReadTask is_conn_close (trace s') = read_exited (rd s')
  /\ count_by HeartbeatTask is_conn_close (trace s') = timeouts ls
  /\ (timeouts ls <= 1)%nat
  /\ (timeouts ls = 1%nat -> hb s' = HExited)
  /\ count is_conn_close (trace s') = (read_exited (rd s') + timeouts ls)%nat.
Proof.
  intros Hsub Hrun.
  pose proof (run_inv _ _ _ (spawned_inv _ _ _ Hsub) Hrun) as [_ _ _ I4 _ I7].
  pose proof (run_closes _ _ _ Hrun) as [Hc Hh].
  destruct (spawned_start _ _ _ Hsub) as (Hrd0 & _ & _ & u & h & Htr0).
  rewrite Hrd0, Htr0 in Hc. rewrite Htr0 in Hh.
  cbn in Hc, Hh. rewrite Hh in I7.
  split; [assumption|]. split; [assumption|].
  destruct (hb s') as [|deadline|].
  - destruct I7 as (_ & _ & I7). repeat split; try lia.
  - destruct I7 as (t0 & _ & _ & _ & _ & I7). repeat split; try lia.
  - destruct I7 as (t0 & _ & _ & _ & _ & I7). repeat split; try lia.
Qed.


(** C4.  When the base address parses, exactly one address is dialled: the
    rendering of the URL whose scheme is [wss], whose host is the host of
    the parsed base address, whose path is the notifications path and
    whose query is empty; the token travels in the [X-Plex-Token] header,
    which is the only header sent. *)
Theorem dial_target p w plexURL :
  url_Parse (URL p) = inl plexURL ->
  exists websocketURL headers,
    dials (outcome_trace (Subscribe p w)) = [(url_String websocketURL, headers)]
    /\ url.Scheme websocketURL = "wss"
    /\ url.Host websocketURL = url.Host plexURL
    /\ url.Path websocketURL = "/:/websockets/notifications"
    /\ url.RawQuery websocketURL = ""
    /\ headers = {[ "X-Plex-Token" := [Token p] ]}.
Proof.
  intros Hp. unfold SubscribeToNotifications. rewrite Hp.
  eexists _, _. split; [destruct (Dial _ _); reflexivity|]. cbn. auto 10.
Qed.

(** C5.  When the base address does not parse, or when the dial fails,
    [SubscribeToNotifications] invokes [errCb] once, with that error,
    and returns: no goroutine is started, and nothing is dialled in the
    first case. *)
Theorem setup_failure p w err :
  url_Parse (URL p) = inr err
  \/ (exists plexURL,
        url_Parse (URL p) = inl plexURL
        /\ Dial (url_String {| url.Scheme := "wss"; url.Host := url.Host plexURL;
                               url.Path := "/:/websockets/notifications";
                               url.RawQuery := ""; url.Fragment := "" |})
                {[ "X-Plex-Token" := [Token p] ]} = Some err) ->
  exists tr,
    Subscribe p w = Returned (errCb err w) tr
    /\ List.filter (fun x => is_callback (snd x)) tr = [(Caller, EvErrCb err)]
    /\ (url_Parse (URL p) = inr err -> dials tr = []).
Proof.
  unfold SubscribeToNotifications.
  intros [Hp | (plexURL & Hp & Hd)]; rewrite Hp.
  - eexists. split; [reflexivity|]. cbn. auto.
  - unfold notificationsPath. rewrite Hd. eexists. split; [reflexivity|].
    cbn. split; [reflexivity|]. intros Habs. discriminate Habs.
Qed.

(** C6.  When [c.ReadJSON] returns a close error with the normal-closure
    code, the iteration invokes [doneCb], once, and nothing else, and
    leaves the loop; the goroutine then only runs its two deferred calls
    and is gone, and no read can happen any more. *)
Theorem read_normal_closure s err :
  rd s = RLoop ->
  websocket.IsCloseError err [websocket.CloseNormalClosure] = true ->
  exists s1 s2,
    step (LRead (inl err)) s = Some s1
    /\ trace s1 = trace s ++ [(ReadTask, EvDoneCb)]
    /\ world s1 = doneCb (world s)
    /\ (forall r, step (LRead r) s1 = None)
    /\ run [LReadDefer; LReadDefer] s1 = Some s2
    /\ rd s2 = RExited
    /\ world s2 = world s1
    /\ trace s2 = trace s1 ++ [(ReadTask, EvCloseDone); (ReadTask, EvConnClose)]
    /\ (forall r, step (LRead r) s2 = None).
Proof.
  intros Hrd Hclose. unfold plex.step at 1. rewrite Hrd.
  unfold read_iteration. rewrite Hclose.
  eexists _, _. split; [reflexivity|]. cbn.
  repeat split; try reflexivity. cbn. now rewrite <- !app_assoc.
Qed.

(** C7.  For a decoded frame: when its type has an entry in the table,
    that handler is invoked, once, on the container of the frame; when it
    has none, the iteration only logs the type.  In both cases no callback
    is invoked and the loop goes on to the next read. *)
Theorem frame_dispatch s notif :
  rd s = RLoop ->
  exists s',
    step (LRead (inr notif)) s = Some s'
    /\ rd s' = RLoop
    /\ List.filter (fun x => is_callback (snd x)) (trace s')
       = List.filter (fun x => is_callback (snd x)) (trace s)
    /\ match events events_ !! Type_ (container notif) with
       | Some h =>
           trace s' = trace s ++ [(ReadTask, EvHandler h (container notif))]
           /\ world s' = h (container notif) (world s)
       | None =>
           trace s' = trace s ++ [(ReadTask, EvLogUnknown (Type_ (container notif)))]
           /\ world s' = world s
       end.
Proof.
  intros Hrd. unfold plex.step. rewrite Hrd.
  eexists. split; [reflexivity|]. unfold read_iteration.
  destruct (events events_ !! _); cbn; rewrite List.filter_app, app_nil_r; auto.
Qed.

(** C8.  In every run of a session, whatever the other goroutine does in
    between, the handler invocations are those that the table prescribes
    for the frames read, in the order of the frames; and on a run of reads
    each handler acts on the caller's state left by the one before, since
    an iteration returns to [c.ReadJSON] only when its handler has
    returned. *)
Theorem handlers_follow_frames p w s0 :
  Subscribe p w = Spawned s0 ->
  (forall ls s', run ls s0 = Some s' ->
     handler_calls (trace s') = omap (dispatch events_) (frames_of ls))
  /\ (forall frames, exists s',
        run (map (fun notif => LRead (inr notif)) frames) s0 = Some s'
        /\ world s' = fold_left (handle events_) frames w).
Proof.
  intros Hsub.
  destruct (spawned_start _ _ _ Hsub) as (Hrd0 & Hcc0 & Hw0 & u & h & Htr0). split.
  - intros ls s' Hrun. rewrite (run_handler_calls _ _ _ Hrun), Htr0. reflexivity.
  - intros frames.
    destruct (run_frames frames s0 Hrd0) as (s' & Hrun & Hw & _).
    exists s'. split; [assumption|]. now rewrite Hw, Hw0.
Qed.

End SessionFacts.

(* ===================================================================== *)
(** * The dispatch table *)

Section TableFacts.

Context {World : Type}.

Lemma lookup_constant_table (v : @Handler World) (l : list string) (k : string) :
  (list_to_map (map (fun kind => (kind, v)) l) : gmap string Handler) !! k
  = if decide (k ∈ l) then Some v else None.
Proof.
  induction l as [|kind l IH]; cbn [map].
  - rewrite list_to_map_nil, lookup_empty, decide_False; [reflexivity|].
    apply not_elem_of_nil.
  - rewrite list_to_map_cons. destruct (decide (kind = k)) as [->|Hne].
    + rewrite lookup_insert_eq, decide_True; [reflexivity|left].
    + rewrite lookup_insert_ne by assumption. rewrite IH.
      destruct (decide (k ∈ l)) as [Hin|Hout].
      * rewrite decide_True; [reflexivity|now right].
      * rewrite decide_False; [reflexivity|].
        intros [->|Hin]%elem_of_cons; [congruence|contradiction].
Qed.

(** C9.  The table of [NewNotificationEvents] maps each of the fourteen
    kinds of its literal to a handler that does nothing, and holds no
    other key; [OnPlaying] and [OnTranscodeUpdate] write the entry of
    their kind, so that on a table that has that entry (the new one, or
    any made from it) no key is added; the handler registered last is the
    one found, and the entries of the other kinds stay as they were. *)
Theorem dispatch_table :
  (forall kind, kind ∈ recognized ->
     events (@NewNotificationEvents World) !! kind = Some noop)
  /\ (forall n (w : World), noop n w = w)
  /\ (forall kind, kind ∉ recognized ->
        events (@NewNotificationEvents World) !! kind = None)
  /\ "playing" ∈ recognized /\ "reachability" ∈ recognized
  /\ "transcodeSession.update" ∈ recognized
  /\ (forall fn (e : @NotificationEvents World),
        is_Some (events e !! "playing") ->
        dom (events (OnPlaying fn e)) = dom (events e))
  /\ (forall fn (e : @NotificationEvents World),
        is_Some (events e !! "transcodeSession.update") ->
        dom (events (OnTranscodeUpdate fn e)) = dom (events e))
  /\ (forall fn, dom (events (OnPlaying fn (@NewNotificationEvents World)))
                 = dom (events (@NewNotificationEvents World))
                 /\ dom (events (OnTranscodeUpdate fn (@NewNotificationEvents World)))
                    = dom (events (@NewNotificationEvents World)))
  /\ (forall f g (e : @NotificationEvents World),
        events (OnPlaying g (OnPlaying f e)) !! "playing" = Some g
        /\ OnPlaying g (OnPlaying f e) = OnPlaying g e
        /\ events (OnTranscodeUpdate g (OnTranscodeUpdate f e))
             !! "transcodeSession.update" = Some g
        /\ OnTranscodeUpdate g (OnTranscodeUpdate f e) = OnTranscodeUpdate g e)
  /\ (forall fn (e : @NotificationEvents World) kind,
        (kind <> "playing" -> events (OnPlaying fn e) !! kind = events e !! kind)
        /\ (kind <> "transcodeSession.update" ->
            events (OnTranscodeUpdate fn e) !! kind = events e !! kind)).
Proof.
  assert (Hdom : forall k (v : @Handler World) (m : gmap string Handler),
             is_Some (m !! k) -> dom (<[k := v]> m) = dom m).
  { intros k v m Hk. rewrite dom_insert_L.
    apply subseteq_union_1_L, singleton_subseteq_l, elem_of_dom, Hk. }
  assert (Hin : forall k, k ∈ recognized ->
             is_Some (events (@NewNotificationEvents World) !! k)).
  { intros k Hk. unfold NewNotificationEvents; cbn [events].
    rewrite lookup_constant_table. rewrite decide_True by assumption. eauto. }
  assert (Hp : "playing" ∈ recognized) by (unfold recognized; repeat constructor).
  assert (Hr : "reachability" ∈ recognized)
    by (unfold recognized; repeat constructor).
  assert (Ht : "transcodeSession.update" ∈ recognized)
    by (unfold recognized; repeat constructor).
  repeat apply conj; try assumption.
  - intros kind Hk. unfold NewNotificationEvents; cbn [events].
    rewrite lookup_constant_table. now rewrite decide_True.
  - reflexivity.
  - intros kind Hk. unfold NewNotificationEvents; cbn [events].
    rewrite lookup_constant_table. now rewrite decide_False.
  - intros fn e He. apply Hdom, He.
  - intros fn e He. apply Hdom, He.
  - intros fn. split; apply Hdom, Hin; assumption.
  - intros f g e. unfold OnPlaying, OnTranscodeUpdate; cbn [events].
    rewrite !lookup_insert_eq, !insert_insert_eq. auto.
  - intros fn e kind. unfold OnPlaying, OnTranscodeUpdate; cbn [events].
    split; intros Hne; now apply lookup_insert_ne.
Qed.

End TableFacts.

(* ===================================================================== *)
(** * The timestamp *)

Lemma ParseUint_loop_ok s : forall n v,
  strconv.ParseUint_loop s n = (v, None) -> strconv.all_digits s = true.
Proof.
  induction s as [|c s IH]; intros n v H; [reflexivity|].
  cbn [strconv.ParseUint_loop strconv.all_digits] in *.
  destruct (strconv.is_digit c); cbn [negb andb] in *; [|discriminate].
  destruct (strconv.cutoff10 <=? n); [discriminate|].
  destruct (_ || _); [discriminate|]. eapply IH, H.
Qed.

Lemma ParseUint_loop_range s : forall n v,
  strconv.ParseUint_loop s n = (v, Some strconv.ErrRange) -> v = maxUint64.
Proof.
  induction s as [|c s IH]; intros n v H; cbn [strconv.ParseUint_loop] in H.
  - discriminate.
  - destruct (negb _); [discriminate|].
    destruct (strconv.cutoff10 <=? n); [congruence|].
    destruct (_ || _); [congruence|]. eapply IH, H.
Qed.

Lemma ParseUint_ok s v :
  strconv.ParseUint s = (v, None) -> strconv.nonempty_digits s = true.
Proof.
  destruct s as [|c s]; [discriminate|]. unfold strconv.ParseUint.
  intros H. apply ParseUint_loop_ok in H. exact H.
Qed.

Lemma ParseUint_range s v :
  strconv.ParseUint s = (v, Some strconv.ErrRange) -> v = maxUint64.
Proof.
  destruct s as [|c s]; [discriminate|]. apply ParseUint_loop_range.
Qed.

Lemma ParseInt_tail neg s v :
  (let '(un, err) := strconv.ParseUint s in
   match err with
   | Some strconv.ErrSyntax => (0, Some strconv.ErrSyntax)
   | _ =>
       let cutoff := 2 ^ 63 in
       if negb neg && (cutoff <=? un) then (cutoff - 1, Some strconv.ErrRange)
       else if neg && (cutoff <? un) then (- cutoff, Some strconv.ErrRange)
       else
         let n := to_int64 un in
         let n := if neg then to_int64 (- n) else n in
         (n, None)
   end) = (v, None) ->
  strconv.nonempty_digits s = true.
Proof.
  destruct (strconv.ParseUint s) as [un [[|]|]] eqn:E; [discriminate| |].
  - apply ParseUint_range in E. subst un. destruct neg; cbn; discriminate.
  - intros _. eapply ParseUint_ok, E.
Qed.

(** [ParseInt] returns no error only on a decimal integer. *)
Lemma ParseInt_ok s v :
  strconv.ParseInt s = (v, None) -> strconv.is_decimal_integer s = true.
Proof.
  destruct s as [|c rest]; [discriminate|].
  unfold strconv.ParseInt, strconv.is_decimal_integer.
  destruct (Ascii.eqb c "+"); cbn [orb].
  - apply ParseInt_tail.
  - destruct (Ascii.eqb c "-"); apply ParseInt_tail.
Qed.

Lemma Unix_of_Unix q : is_int64 q -> time.Unix_of (time.Unix q 0) = q.
Proof.
  intros Hq. unfold time.Unix_of, time.Unix, time.sec. cbn [time.wall time.ext].
  change (to_uint64 0) with 0. cbn [Z.land Z.eqb negb].
  unfold time.internalToUnix. now apply to_int64_add_cancel.
Qed.

(** C10.  Unmarshalling what [MarshalJSON] produced succeeds, whatever the
    receiver held, and gives a timestamp with the same [Unix()] value, no
    nanoseconds and the local location; [MarshalJSON] itself returns no
    error.  On an input that is not a decimal integer, [UnmarshalJSON]
    returns an error and the receiver keeps its value. *)
Theorem timestamp_json_round_trip (t t0 : Timestamp.Timestamp) (s : string) :
  (exists t',
     Timestamp.UnmarshalJSON t0 (fst (Timestamp.MarshalJSON t)) = (t', None)
     /\ Timestamp.Unix t' = Timestamp.Unix t
     /\ time.wall t' = 0 /\ time.loc t' = time.Local
     /\ snd (Timestamp.MarshalJSON t) = None)
  /\ (strconv.is_decimal_integer s = false ->
      exists err, Timestamp.UnmarshalJSON t0 s = (t0, Some err)).
Proof.
  split.
  - unfold Timestamp.UnmarshalJSON, Timestamp.MarshalJSON, Timestamp.Unix.
    cbn [fst snd].
    rewrite ParseInt_FormatInt by (unfold time.Unix_of; apply to_int64_range).
    eexists. split; [reflexivity|].
    split; [apply Unix_of_Unix; unfold time.Unix_of; apply to_int64_range|].
    cbn. auto.
  - intros Hs. unfold Timestamp.UnmarshalJSON.
    destruct (strconv.ParseInt s) as [q [err|]] eqn:E; [eauto|].
    apply ParseInt_ok in E. congruence.
Qed.

(* ===================================================================== *)
(** * The claims on the concrete caller *)

Lemma demo_started : demo_Subscribe demo.server [] = Spawned demo.started.
Proof. reflexivity. Qed.

(** The three runs are runs of the system, and end with both goroutines
    gone. *)
Lemma demo_runs_finish :
  forall ls, ls ∈ [demo.broken_connection; demo.silent_peer; demo.clean_shutdown] ->
  exists s', demo_run ls demo.started = Some s'
             /\ rd s' = RExited /\ hb s' = HExited.
Proof.
  intros ls Hls. repeat (apply elem_of_cons in Hls as [->|Hls]).
  - eexists. split; [vm_compute; reflexivity|]. split; reflexivity.
  - eexists. split; [vm_compute; reflexivity|]. split; reflexivity.
  - eexists. split; [vm_compute; reflexivity|]. split; reflexivity.
  - apply not_elem_of_nil in Hls. contradiction.
Qed.


(** C2 as stated fails: with a silent peer the ticker goroutine closes the
    connection at the expiry of its timer and the read goroutine closes it
    again on its way out. *)
Lemma close_not_by_one_task :
  ~ (forall s0 ls s',
       demo_Subscribe demo.server [] = Spawned s0 ->
       demo_run ls s0 = Some s' ->
       count_by ReadTask is_conn_close (trace s') = 0%nat
       /\ (count is_conn_close (trace s') <= 1)%nat).
Proof.
  intros H.
  destruct (demo_run demo.silent_peer demo.started) as [s'|] eqn:E;
    [|vm_compute in E; discriminate].
  specialize (H demo.started demo.silent_peer s' demo_started E).
  vm_compute in E. injection E as <-.
  destruct H as [H _]. vm_compute in H. discriminate.
Qed.


Lemma closes_of_a_session_witness :
  exists s', demo_run demo.silent_peer demo.started = Some s'
             /\ count_by ReadTask is_conn_close (trace s') = 1%nat
             /\ count_by HeartbeatTask is_conn_close (trace s') = 1%nat
             /\ count is_conn_close (trace s') = 2%nat
             /\ hb s' = HExited.
Proof.
  eexists. split; [vm_compute; reflexivity|].
  destruct (closes_of_a_session demo.events_ demo.errCb demo.doneCb
              demo.url_Parse demo.url_String demo.Dial demo.server []
              demo.started demo.silent_peer _ demo_started
              ltac:(vm_compute; reflexivity)) as (Hr & Hh & _ & Hx & Hc).
  split; [exact Hr|]. split; [exact Hh|]. split; [exact Hc|].
  apply Hx. vm_compute. reflexivity.
Defined.


Lemma dial_target_witness :
  exists websocketURL headers,
    dials (outcome_trace (demo_Subscribe demo.server []))
    = [(demo.url_String websocketURL, headers)]
    /\ url.Scheme websocketURL = "wss"
    /\ url.Host websocketURL = "localhost:32400"
    /\ url.Path websocketURL = "/:/websockets/notifications"
    /\ url.RawQuery websocketURL = ""
    /\ headers = {[ "X-Plex-Token" := ["token"] ]}.
Proof.
  exact (dial_target demo.errCb demo.url_Parse demo.url_String demo.Dial
           demo.server [] _ eq_refl).
Defined.

Lemma setup_failure_witness :
  (exists tr,
     demo_Subscribe demo.malformed [] = Returned ["error"] tr
     /\ List.filter (fun x => is_callback (snd x)) tr
        = [(Caller, EvErrCb (OtherError "parse error"))]
     /\ dials tr = [])
  /\ (exists tr,
        demo_Subscribe demo.unreachable [] = Returned ["error"] tr
        /\ List.filter (fun x => is_callback (snd x)) tr
           = [(Caller, EvErrCb (OtherError "dial tcp: connection refused"))]).
Proof.
  split.
  - destruct (setup_failure demo.errCb demo.url_Parse demo.url_String demo.Dial
                demo.malformed [] _ (or_introl eq_refl)) as (tr & Hs & Hc & Hd).
    exists tr. split; [exact Hs|]. split; [exact Hc|]. apply Hd. reflexivity.
  - destruct (setup_failure demo.errCb demo.url_Parse demo.url_String demo.Dial
                demo.unreachable [] _
                (or_intror (ex_intro _ _ (conj eq_refl eq_refl))))
      as (tr & Hs & Hc & _).
    exists tr. split; [exact Hs|exact Hc].
Defined.

Lemma read_normal_closure_witness :
  exists s1 s2,
    step demo.events_ demo.errCb demo.doneCb
      (LRead (inl (CloseError 1000 ""))) demo.started = Some s1
    /\ trace s1 = trace demo.started ++ [(ReadTask, EvDoneCb)]
    /\ world s1 = ["done"]
    /\ (forall r, step demo.events_ demo.errCb demo.doneCb (LRead r) s1 = None)
    /\ demo_run [LReadDefer; LReadDefer] s1 = Some s2
    /\ rd s2 = RExited
    /\ world s2 = world s1
    /\ trace s2 = trace s1 ++ [(ReadTask, EvCloseDone); (ReadTask, EvConnClose)]
    /\ (forall r, step demo.events_ demo.errCb demo.doneCb (LRead r) s2 = None).
Proof.
  exact (read_normal_closure demo.events_ demo.errCb demo.doneCb demo.started
           (CloseError 1000 "") eq_refl eq_refl).
Defined.

Lemma frame_dispatch_witness :
  exists s',
    step demo.events_ demo.errCb demo.doneCb
      (LRead (inr (demo.frame "playing"))) demo.started = Some s'
    /\ rd s' = RLoop
    /\ List.filter (fun x => is_callback (snd x)) (trace s') = []
    /\ trace s' = trace demo.started
                  ++ [(ReadTask, EvHandler demo.onPlaying (container (demo.frame "playing")))]
    /\ world s' = ["playing"].
Proof.
  exact (frame_dispatch demo.events_ demo.errCb demo.doneCb demo.started
           (demo.frame "playing") eq_refl).
Defined.

Lemma handlers_follow_frames_witness :
  (exists s', demo_run demo.clean_shutdown demo.started = Some s'
              /\ handler_calls (trace s')
                 = [(demo.onPlaying, container (demo.frame "playing"))])
  /\ (exists s',
        demo_run [LRead (inr (demo.frame "playing"));
                  LRead (inr (demo.frame "reachability"));
                  LRead (inr (demo.frame "unheard.of"));
                  LRead (inr (demo.frame "playing"))] demo.started = Some s'
        /\ world s' = ["playing"; "playing"]).
Proof.
  destruct (handlers_follow_frames demo.events_ demo.errCb demo.doneCb
              demo.url_Parse demo.url_String demo.Dial demo.server []
              demo.started demo_started) as [Hcalls Hworld].
  split.
  - eexists. split; [vm_compute; reflexivity|].
    pose proof (Hcalls demo.clean_shutdown _ ltac:(vm_compute; reflexivity)) as H.
    vm_compute in H |- *. exact H.
  - destruct (Hworld [demo.frame "playing"; demo.frame "reachability";
                      demo.frame "unheard.of"; demo.frame "playing"])
      as (s' & Hrun & Hw).
    exists s'. split; [exact Hrun|]. rewrite Hw. vm_compute. reflexivity.
Defined.

Lemma dispatch_table_witness :
  events (@NewNotificationEvents demo.World) !! "reachability" = Some noop
  /\ events (@NewNotificationEvents demo.World) !! "unheard.of" = None
  /\ dom (events demo.events_) = dom (events (@NewNotificationEvents demo.World))
  /\ events demo.events_ !! "timeline" = Some noop.
Proof.
  destruct (@dispatch_table demo.World)
    as (Hin & _ & Hout & _ & Hr & _ & _ & _ & Hnew & _ & Hother).
  split; [exact (Hin _ Hr)|].
  split; [apply Hout; apply (bool_decide_unpack _); vm_compute; exact I|].
  split; [exact (proj1 (Hnew demo.onPlaying))|].
  unfold demo.events_.
  rewrite (proj1 (Hother demo.onPlaying NewNotificationEvents "timeline"))
    by discriminate.
  apply Hin. unfold recognized. repeat constructor.
Defined.

Lemma timestamp_json_round_trip_witness :
  (exists t',
     Timestamp.UnmarshalJSON (time.Unix 0 0)
       (fst (Timestamp.MarshalJSON (time.Unix 1700000000 0))) = (t', None)
     /\ Timestamp.Unix t' = 1700000000)
  /\ exists err,
       Timestamp.UnmarshalJSON (time.Unix 0 0) "12a" = (time.Unix 0 0, Some err).
Proof.
  destruct (timestamp_json_round_trip (time.Unix 1700000000 0) (time.Unix 0 0) "12a")
    as [(t' & Hu & Hx & _) Herr].
  split.
  - exists t'. split; [exact Hu|]. rewrite Hx. vm_compute. reflexivity.
  - apply Herr. vm_compute. reflexivity.
Defined.

(* ===================================================================== *)
(** * More about the timestamp *)

Lemma all_digits_formatBits_loop fuel : forall u a,
  0 <= u -> all_digits a = true -> all_digits (formatBits_loop fuel u a) = true.
Proof.
  induction fuel as [|fuel IH]; intros u a Hu Ha; cbn [formatBits_loop].
  - assumption.
  - destruct (Z.ltb_spec u 10).
    + cbn [all_digits]. rewrite digit_char_is_digit by lia. assumption.
    + apply IH; [apply Z.div_pos; lia|].
      cbn [all_digits]. rewrite digit_char_is_digit; [assumption|].
      apply Z.mod_pos_bound; lia.
Qed.






Lemma is_digit_val c : is_digit c = true -> 0 <= digit_val c <= 9.
Proof.
  unfold is_digit, digit_val. intros H.
  apply andb_prop in H as [H1%Z.leb_le H2%Z.leb_le]. lia.
Qed.

Lemma digits_value_ge s : forall n,
  all_digits s = true -> 0 <= n -> n <= digits_value s n.
Proof.
  induction s as [|c s IH]; intros n Hs Hn; cbn [digits_value]; [lia|].
  cbn [all_digits] in Hs. apply andb_prop in Hs as [Hc Hs].
  pose proof (is_digit_val c Hc).
  specialize (IH (n * 10 + digit_val c) Hs ltac:(lia)). lia.
Qed.

(** [ParseUint] computes the number the digits denote, or reports that it
    does not fit. *)
Lemma ParseUint_loop_value s : forall n,
  all_digits s = true -> 0 <= n <= maxUint64 ->
  ParseUint_loop s n
  = if digits_value s n <=? maxUint64 then (digits_value s n, None)
    else (maxUint64, Some ErrRange).
Proof.
  unfold maxUint64, two64. change (2 ^ 64 - 1) with 18446744073709551615.
  induction s as [|c s IH]; intros n Hs Hn; cbn [ParseUint_loop digits_value].
  - destruct (Z.leb_spec n 18446744073709551615); [reflexivity|lia].
  - cbn [all_digits] in Hs. apply andb_prop in Hs as [Hc Hs]. rewrite Hc.
    cbn [negb]. pose proof (is_digit_val c Hc) as Hd.
    pose proof (digits_value_ge s (n * 10 + digit_val c) Hs ltac:(lia)) as Hge.
    unfold cutoff10, maxUint64, two64.
    change (2 ^ 64 - 1) with 18446744073709551615.
    change (18446744073709551615 / 10 + 1) with 1844674407370955162.
    destruct (Z.leb_spec 1844674407370955162 n) as [Hcut|Hcut].
    + destruct (Z.leb_spec (digits_value s (n * 10 + digit_val c))
                  18446744073709551615); [lia|reflexivity].
    + unfold to_uint64, two64. change (2 ^ 64) with 18446744073709551616.
      rewrite (Z.mod_small (n * 10)) by lia.
      destruct (Z.le_gt_cases (n * 10 + digit_val c) 18446744073709551615)
        as [Hfit|Hover].
      * rewrite (Z.mod_small (n * 10 + digit_val c)) by lia.
        destruct (Z.ltb_spec (n * 10 + digit_val c) (n * 10)); [lia|].
        destruct (Z.ltb_spec 18446744073709551615 (n * 10 + digit_val c)); [lia|].
        cbn [orb]. apply IH; [assumption|lia].
      * replace ((n * 10 + digit_val c) mod 18446744073709551616)
          with (n * 10 + digit_val c - 18446744073709551616)
          by (apply Z.mod_unique with 1; lia).
        destruct (Z.ltb_spec (n * 10 + digit_val c - 18446744073709551616) (n * 10));
          [|lia].
        cbn [orb].
        destruct (Z.leb_spec (digits_value s (n * 10 + digit_val c))
                    18446744073709551615); [lia|reflexivity].
Qed.

Lemma ParseUint_value s :
  nonempty_digits s = true ->
  ParseUint s
  = if digits_value s 0 <=? maxUint64 then (digits_value s 0, None)
    else (maxUint64, Some ErrRange).
Proof.
  destruct s as [|c s]; [discriminate|]. intros Hs. unfold ParseUint.
  apply ParseUint_loop_value; [exact Hs|unfold maxUint64, two64; lia].
Qed.

Lemma nonempty_digits_head s :
  nonempty_digits s = true ->
  exists c rest, s = String c rest /\ is_digit c = true.
Proof.
  destruct s as [|c rest]; [discriminate|]. cbn. intros H.
  apply andb_prop in H as [H _]. eauto.
Qed.

Lemma is_digit_not_sign c :
  is_digit c = true -> Ascii.eqb c "+" = false /\ Ascii.eqb c "-" = false.
Proof.
  intros H. split.
  - destruct (Ascii.eqb_spec c "+") as [->|]; [discriminate H|reflexivity].
  - destruct (Ascii.eqb_spec c "-") as [->|]; [discriminate H|reflexivity].
Qed.

(** [ParseInt] on digits, with or without a sign. *)
Lemma ParseInt_value ds :
  nonempty_digits ds = true ->
  let v := digits_value ds 0 in
  ParseInt ds = (if v <=? maxInt64 then (v, None) else (maxInt64, Some ErrRange))
  /\ ParseInt (String "+" ds)
     = (if v <=? maxInt64 then (v, None) else (maxInt64, Some ErrRange))
  /\ ParseInt (String "-" ds)
     = (if v <=? - minInt64 then (- v, None) else (minInt64, Some ErrRange)).
Proof.
  intros Hds v.
  pose proof (ParseUint_value ds Hds) as HU. fold v in HU.
  assert (Hv : 0 <= v).
  { apply (digits_value_ge ds 0); [|lia].
    destruct ds; [discriminate|exact Hds]. }
  unfold maxInt64, minInt64, maxUint64, two64 in *.
  change (2 ^ 63) with 9223372036854775808 in *.
  change (2 ^ 64 - 1) with 18446744073709551615 in *.
  assert (Hpos :
            (let '(un, err) := ParseUint ds in
             match err with
             | Some ErrSyntax => (0, Some ErrSyntax)
             | _ =>
                 let cutoff := 2 ^ 63 in
                 if negb false && (cutoff <=? un) then (cutoff - 1, Some ErrRange)
                 else if false && (cutoff <? un) then (- cutoff, Some ErrRange)
                 else
                   let n := to_int64 un in
                   let n := if false then to_int64 (- n) else n in
                   (n, None)
             end)
            = (if v <=? 9223372036854775808 - 1 then (v, None)
               else (9223372036854775808 - 1, Some ErrRange))).
  { rewrite HU. change (2 ^ 63) with 9223372036854775808.
    destruct (Z.leb_spec v 18446744073709551615).
    - cbn [negb andb].
      destruct (Z.leb_spec 9223372036854775808 v);
        destruct (Z.leb_spec v (9223372036854775808 - 1)); try lia; try reflexivity.
      f_equal. apply to_int64_id. unfold is_int64, minInt64, maxInt64.
      change (2 ^ 63) with 9223372036854775808. lia.
    - cbn [negb andb].
      destruct (Z.leb_spec v (9223372036854775808 - 1)); [lia|reflexivity]. }
  destruct (nonempty_digits_head ds Hds) as (c & rest & Eds & Hc).
  destruct (is_digit_not_sign c Hc) as [Hplus Hminus].
  repeat apply conj.
  - subst ds. unfold ParseInt. cbv beta iota. rewrite Hplus, Hminus.
    exact Hpos.
  - unfold ParseInt. cbn [Ascii.eqb Bool.eqb]. exact Hpos.
  - unfold ParseInt. cbn [Ascii.eqb Bool.eqb]. rewrite HU.
    change (2 ^ 63) with 9223372036854775808.
    change (- - (9223372036854775808)) with 9223372036854775808.
    destruct (Z.leb_spec v 18446744073709551615).
    + cbn [negb andb].
      destruct (Z.ltb_spec 9223372036854775808 v);
        destruct (Z.leb_spec v 9223372036854775808); try lia; try reflexivity.
      f_equal. unfold to_int64, two64.
      change (2 ^ 63) with 9223372036854775808.
      change (2 ^ 64) with 18446744073709551616.
      destruct (Z.eq_dec v 9223372036854775808) as [->|Hne]; [reflexivity|].
      rewrite (Z.mod_small (v + 9223372036854775808)) by lia.
      replace (- (v + 9223372036854775808 - 9223372036854775808) + 9223372036854775808)
        with (9223372036854775808 - v) by ring.
      rewrite Z.mod_small by lia. lia.
    + cbn [negb andb].
      destruct (Z.leb_spec v 9223372036854775808); [lia|reflexivity].
Qed.

(** X2.  On digits [ds], with or without a sign in front, [UnmarshalJSON]
    sets the receiver to the second that the number denotes (leading zeros
    and a plus sign are accepted) when that number is an int64, and
    otherwise returns a range error and leaves the receiver as it was. *)
Theorem UnmarshalJSON_digits (t0 : Timestamp.Timestamp) (ds : string) :
  nonempty_digits ds = true ->
  let v := digits_value ds 0 in
  (forall s, s = ds \/ s = String "+" ds ->
     if v <=? maxInt64
     then exists t', Timestamp.UnmarshalJSON t0 s = (t', None)
                     /\ Timestamp.Unix t' = v
     else Timestamp.UnmarshalJSON t0 s = (t0, Some ErrRange))
  /\ (if v <=? - minInt64
      then exists t', Timestamp.UnmarshalJSON t0 (String "-" ds) = (t', None)
                      /\ Timestamp.Unix t' = - v
      else Timestamp.UnmarshalJSON t0 (String "-" ds) = (t0, Some ErrRange)).
Proof.
  intros Hds v. destruct (ParseInt_value ds Hds) as (H1 & H2 & H3).
  fold v in H1, H2, H3.
  assert (Hv : 0 <= v).
  { apply (digits_value_ge ds 0); [|lia].
    destruct ds; [discriminate|exact Hds]. }
  split.
  - intros s [-> | ->]; unfold Timestamp.UnmarshalJSON;
      [rewrite H1|rewrite H2];
      (destruct (Z.leb_spec v maxInt64); [|reflexivity]);
      (eexists; split; [reflexivity|]);
      apply Unix_of_Unix; unfold is_int64, minInt64 in *; lia.
  - unfold Timestamp.UnmarshalJSON. rewrite H3.
    destruct (Z.leb_spec v (- minInt64)); [|reflexivity].
    eexists; split; [reflexivity|].
    apply Unix_of_Unix. unfold is_int64, minInt64, maxInt64 in *. lia.
Qed.

(** X3.  Two timestamps are written as the same bytes exactly when they are
    the same second: the nanoseconds and the location play no part, and
    different seconds are never written alike. *)
Theorem MarshalJSON_same_bytes (t1 t2 : Timestamp.Timestamp) :
  fst (Timestamp.MarshalJSON t1) = fst (Timestamp.MarshalJSON t2)
  <-> Timestamp.Unix t1 = Timestamp.Unix t2.
Proof.
  unfold Timestamp.MarshalJSON, Timestamp.Unix; cbn [fst]. split.
  - intros E.
    pose proof (ParseInt_FormatInt (time.Unix_of t1)
                  ltac:(unfold time.Unix_of; apply to_int64_range)) as P1.
    pose proof (ParseInt_FormatInt (time.Unix_of t2)
                  ltac:(unfold time.Unix_of; apply to_int64_range)) as P2.
    rewrite E in P1. congruence.
  - now intros ->.
Qed.

Lemma land_nsecMask_hasMonotonic w :
  Z.land (Z.land w time.nsecMask) time.hasMonotonic = 0.
Proof.
  rewrite <- Z.land_assoc.
  change (Z.land time.nsecMask time.hasMonotonic) with 0. apply Z.land_0_r.
Qed.

Lemma sec_stripMono t : time.sec (time.stripMono t) = time.sec t.
Proof.
  unfold time.stripMono.
  destruct (negb (Z.land (time.wall t) time.hasMonotonic =? 0)) eqn:E;
    [|reflexivity].
  unfold time.sec at 1. cbn [time.wall time.ext].
  now rewrite land_nsecMask_hasMonotonic.
Qed.

Lemma stripMono_stripped t :
  Z.land (time.wall (time.stripMono t)) time.hasMonotonic = 0.
Proof.
  unfold time.stripMono.
  destruct (Z.eqb_spec (Z.land (time.wall t) time.hasMonotonic) 0) as [E|E];
    cbn [negb time.wall]; [assumption|apply land_nsecMask_hasMonotonic].
Qed.

Lemma stripMono_id t :
  Z.land (time.wall t) time.hasMonotonic = 0 -> time.stripMono t = t.
Proof. intros H. unfold time.stripMono. now rewrite H. Qed.

(** X4.  [Time] gives the same instant in UTC: the second and the
    nanoseconds are those of the timestamp, the location is UTC, the
    monotonic clock reading is dropped, and doing it twice changes nothing
    more. *)
Theorem Timestamp_Time_same_instant (t : Timestamp.Timestamp) :
  time.Unix_of (Timestamp.Time t) = Timestamp.Unix t
  /\ time.nsec (Timestamp.Time t) = time.nsec t
  /\ time.loc (Timestamp.Time t) = time.UTC
  /\ Z.land (time.wall (Timestamp.Time t)) time.hasMonotonic = 0
  /\ Timestamp.Time (Timestamp.Time t) = Timestamp.Time t.
Proof.
  unfold Timestamp.Time, Timestamp.Unix, time.Time_UTC, time.setLoc.
  repeat apply conj.
  - unfold time.Unix_of. f_equal. f_equal.
    rewrite <- (sec_stripMono t). unfold time.sec. reflexivity.
  - unfold time.nsec, time.stripMono. cbn [time.wall].
    destruct (negb _); cbn [time.wall]; [|reflexivity].
    rewrite <- Z.land_assoc. now rewrite Z.land_diag.
  - reflexivity.
  - cbn [time.wall]. apply stripMono_stripped.
  - rewrite (stripMono_id {| time.wall := time.wall (time.stripMono t);
                             time.ext := time.ext (time.stripMono t);
                             time.loc := time.UTC |})
      by (cbn [time.wall]; apply stripMono_stripped).
    reflexivity.
Qed.

(* ===================================================================== *)
(** * More about the dispatch table *)

Section ConfiguredTables.

Context {World : Type}.

Lemma new_table_recognized kind :
  kind ∈ recognized -> events (@NewNotificationEvents World) !! kind = Some noop.
Proof.
  intros Hk. unfold NewNotificationEvents; cbn [events].
  rewrite lookup_constant_table. now rewrite decide_True.
Qed.

Lemma new_table_other kind :
  kind ∉ recognized -> events (@NewNotificationEvents World) !! kind = None.
Proof.
  intros Hk. unfold NewNotificationEvents; cbn [events].
  rewrite lookup_constant_table. now rewrite decide_False.
Qed.

Lemma configure_shape (rs : list (@Registration World)) :
  forall (e : @NotificationEvents World) hp ht (base : gmap string Handler),
  events e = <["playing" := hp]> (<["transcodeSession.update" := ht]> base) ->
  events (fold_left register rs e)
  = <["playing" :=
        fold_left (fun h r => match r with RegPlaying fn => fn | _ => h end) rs hp]>
      (<["transcodeSession.update" :=
           fold_left (fun h r => match r with RegTranscodeUpdate fn => fn | _ => h end)
             rs ht]> base).
Proof.
  induction rs as [|r rs IH]; intros e hp ht base He; cbn [fold_left].
  - exact He.
  - apply IH. destruct r as [fn|fn]; cbn [register OnPlaying OnTranscodeUpdate events];
      rewrite He.
    + apply insert_insert_eq.
    + rewrite insert_insert_ne by discriminate. now rewrite insert_insert_eq.
Qed.

Lemma configure_events (rs : list (@Registration World)) :
  events (configure rs)
  = <["playing" := registered_playing rs]>
      (<["transcodeSession.update" := registered_transcode rs]>
         (events NewNotificationEvents)).
Proof.
  unfold configure, registered_playing, registered_transcode.
  apply configure_shape.
  rewrite (insert_id _ "transcodeSession.update" noop)
    by (apply new_table_recognized; unfold recognized; repeat constructor).
  rewrite insert_id
    by (apply new_table_recognized; unfold recognized; repeat constructor).
  reflexivity.
Qed.

Lemma configure_other (rs : list (@Registration World)) kind :
  kind <> "playing" -> kind <> "transcodeSession.update" ->
  events (configure rs) !! kind = events (@NewNotificationEvents World) !! kind.
Proof.
  intros H1 H2. rewrite configure_events.
  rewrite lookup_insert_ne by congruence. now rewrite lookup_insert_ne by congruence.
Qed.

Lemma configure_other_noop (rs : list (@Registration World)) kind :
  kind <> "playing" -> kind <> "transcodeSession.update" ->
  events (configure rs) !! kind = Some noop \/ events (configure rs) !! kind = None.
Proof.
  intros H1 H2. rewrite (configure_other rs kind H1 H2).
  destruct (decide (kind ∈ recognized)) as [Hk|Hk];
    [left; apply new_table_recognized, Hk|right; apply new_table_other, Hk].
Qed.

(** X5.  However the two registration functions are called on a new table,
    and in whatever order, the table keeps the fourteen keys it was made
    with; under ["playing"] and ["transcodeSession.update"] it holds the
    handler of the last call for that kind (the no-op handler when there
    was none), and under every other key what the new table holds.  No
    exported function touches the other twelve kinds. *)
Theorem configured_table (rs : list (@Registration World)) :
  events (configure rs) !! "playing" = Some (registered_playing rs)
  /\ events (configure rs) !! "transcodeSession.update"
     = Some (registered_transcode rs)
  /\ dom (events (configure rs)) = dom (events (@NewNotificationEvents World))
  /\ (forall kind, kind <> "playing" -> kind <> "transcodeSession.update" ->
        events (configure rs) !! kind
        = events (@NewNotificationEvents World) !! kind)
  /\ (forall kind, kind <> "playing" -> kind <> "transcodeSession.update" ->
        events (configure rs) !! kind = Some noop
        \/ events (configure rs) !! kind = None).
Proof.
  repeat apply conj.
  - rewrite configure_events. apply lookup_insert_eq.
  - rewrite configure_events. rewrite lookup_insert_ne by discriminate.
    apply lookup_insert_eq.
  - rewrite configure_events, !dom_insert_L.
    assert ("playing" ∈ dom (events (@NewNotificationEvents World))).
    { apply elem_of_dom. rewrite new_table_recognized; [eauto|].
      unfold recognized; repeat constructor. }
    assert ("transcodeSession.update" ∈ dom (events (@NewNotificationEvents World))).
    { apply elem_of_dom. rewrite new_table_recognized; [eauto|].
      unfold recognized; repeat constructor. }
    rewrite (subseteq_union_1_L {["transcodeSession.update"]})
      by (now apply singleton_subseteq_l).
    apply subseteq_union_1_L. now apply singleton_subseteq_l.
  - apply configure_other.
  - apply configure_other_noop.
Qed.

End ConfiguredTables.

(* ===================================================================== *)
(** * More about the session *)

Section MoreSessionFacts.

Context {World : Type}.
Variable events_ : @NotificationEvents World.
Variable errCb : error -> World -> World.
Variable doneCb : World -> World.
Variable url_Parse : string -> url.URL + error.
Variable url_String : url.URL -> string.
Variable Dial : string -> Header -> option error.

Local Abbreviation step' := (step events_ errCb doneCb).
Local Abbreviation run' := (run events_ errCb doneCb).
Local Abbreviation Subscribe' :=
  (SubscribeToNotifications errCb url_Parse url_String Dial).

Ltac session_fields :=
  cbn [rd hb done_closed conn_closed now interrupted world trace] in *.

Ltac session_unfold :=
  unfold plex.step, read_defer, read_iteration, heartbeat_tick, heartbeat_interrupt,
    heartbeat_done, heartbeat_timeout, call_errCb, call_doneCb, call_handler,
    close_done, close_conn, mark_interrupted, with_rd, with_hb, with_world,
    with_now, log in *.

(** Case analysis of a step: one goal for each way a label can happen. *)
Ltac step_cases Hs :=
  match type of Hs with
  | plex.step _ _ _ ?l ?s = Some _ =>
      destruct s as [rd0 hb0 dn cc nw intr w tr];
      destruct l as [[err|notif]| |payload [werr|]|werr| | |d];
      session_unfold; session_fields;
      repeat match type of Hs with
        | context [match ?x with _ => _ end] => destruct x eqn:?; try discriminate
        | context [if ?x then _ else _] => destruct x eqn:?; try discriminate
        end;
      injection Hs as <-; session_fields
  end.

Ltac history :=
  unfold count, count_by, callbacks_by, replay in *; session_fields; cbn [map] in *;
  rewrite ?List.filter_app, ?length_app, ?map_app, ?fold_left_app;
  cbn [List.filter length map fold_left fst snd task_eqb andb is_callback
       is_doneCb is_errCb is_conn_close is_close_done is_ticker_stop
       is_text_frame replay_event Z.eqb websocket.CloseMessage
       websocket.TextMessage Pos.eqb tick interrupt failed_tick timeout] in *;
  rewrite ?app_nil_r in *.

(** What one step adds to the closings of [done] and to the stops of the
    ticker. *)
Lemma step_done_and_ticker l s s' :
  step' l s = Some s' ->
  (count is_close_done (trace s') + Nat.b2n (done_is_closed (rd s))
   = count is_close_done (trace s) + Nat.b2n (done_is_closed (rd s')))%nat
  /\ count_by HeartbeatTask is_close_done (trace s')
     = count_by HeartbeatTask is_close_done (trace s)
  /\ (count is_ticker_stop (trace s') + match hb s with HExited => 1 | _ => 0 end
      = count is_ticker_stop (trace s) + match hb s' with HExited => 1 | _ => 0 end)%nat.
Proof.
  intros Hs. step_cases Hs; history; cbn [Nat.b2n done_is_closed];
    repeat apply conj; try lia.
Qed.


Lemma run_done_and_ticker ls : forall s s',
  run' ls s = Some s' ->
  (count is_close_done (trace s') + Nat.b2n (done_is_closed (rd s))
   = count is_close_done (trace s) + Nat.b2n (done_is_closed (rd s')))%nat
  /\ count_by HeartbeatTask is_close_done (trace s')
     = count_by HeartbeatTask is_close_done (trace s)
  /\ (count is_ticker_stop (trace s') + match hb s with HExited => 1 | _ => 0 end
      = count is_ticker_stop (trace s) + match hb s' with HExited => 1 | _ => 0 end)%nat.
Proof.
  induction ls as [|l ls IH]; intros s s' Hrun; cbn [plex.run] in Hrun.
  - injection Hrun as <-. repeat apply conj; lia.
  - destruct (step' l s) as [s1|] eqn:Hs; [|discriminate].
    destruct (step_done_and_ticker _ _ _ Hs) as (A1 & A2 & A3).
    destruct (IH _ _ Hrun) as (B1 & B2 & B3).
    repeat apply conj; [lia|congruence|lia].
Qed.

(** X11.  In every run of a session [done] is closed exactly once, by the
    read goroutine when it returns, and never again (a second [close] of a
    channel would panic); the ticker is stopped exactly once, when the
    ticker goroutine returns. *)
Theorem done_closed_once p w s0 ls s' :
  Subscribe' p w = Spawned s0 ->
  run' ls s0 = Some s' ->
  count is_close_done (trace s') = Nat.b2n (done_closed s')
  /\ done_closed s' = done_is_closed (rd s')
  /\ count_by HeartbeatTask is_close_done (trace s') = 0%nat
  /\ count is_ticker_stop (trace s') = match hb s' with HExited => 1%nat | _ => 0%nat end.
Proof.
  intros Hsub Hrun.
  pose proof (run_inv events_ errCb doneCb _ _ _
                (spawned_inv errCb url_Parse url_String Dial _ _ _ Hsub) Hrun)
    as [I1 _ _ _ _ _].
  destruct (run_done_and_ticker _ _ _ Hrun) as (A1 & A2 & A3).
  revert Hsub A1 A2 A3. unfold SubscribeToNotifications.
  destruct (url_Parse _); [|discriminate].
  destruct (Dial _ _); [discriminate|]. intros [= <-]. history.
  cbn [Nat.b2n done_is_closed]. intros A1 A2 A3. rewrite I1.
  repeat apply conj; try reflexivity; lia.
Qed.




(** What one step does to the read goroutine. *)
Lemma step_read l s s' :
  step' l s = Some s' ->
  match l with
  | LRead (inl err) =>
      rd s = RLoop /\ rd s' <> RLoop
      /\ callbacks_by ReadTask (trace s')
         = callbacks_by ReadTask (trace s) ++ [exit_callback err]
  | LRead (inr _) =>
      rd s = RLoop /\ rd s' = RLoop
      /\ callbacks_by ReadTask (trace s') = callbacks_by ReadTask (trace s)
  | _ =>
      (rd s = RLoop <-> rd s' = RLoop)
      /\ callbacks_by ReadTask (trace s') = callbacks_by ReadTask (trace s)
  end.
Proof.
  intros Hs. step_cases Hs; history; unfold exit_callback;
    rewrite ?Heqb; repeat apply conj; try reflexivity; try discriminate;
    try (intros; first [assumption|discriminate]).
Qed.

Lemma run_read_returned ls : forall s s',
  rd s <> RLoop -> run' ls s = Some s' ->
  read_results ls = [] /\ rd s' <> RLoop
  /\ callbacks_by ReadTask (trace s') = callbacks_by ReadTask (trace s).
Proof.
  induction ls as [|l ls IH]; intros s s' Hrd Hrun; cbn [plex.run] in Hrun.
  - injection Hrun as <-. auto.
  - destruct (step' l s) as [s1|] eqn:Hs; [|discriminate].
    pose proof (step_read _ _ _ Hs) as H.
    destruct l as [[err|notif]| | | | | |];
      try (destruct H as (H & _); contradiction);
      destruct H as (Hiff & Hcb);
      (destruct (IH s1 s') as (A & B & C); [tauto|assumption|]);
      cbn [read_results]; repeat apply conj; try assumption; congruence.
Qed.

Lemma run_read_loop ls : forall s s',
  rd s = RLoop -> run' ls s = Some s' ->
  exists frames,
    (rd s' = RLoop /\ read_results ls = map inr frames
     /\ callbacks_by ReadTask (trace s') = callbacks_by ReadTask (trace s))
    \/ (exists err,
          rd s' <> RLoop /\ read_results ls = map inr frames ++ [inl err]
          /\ callbacks_by ReadTask (trace s')
             = callbacks_by ReadTask (trace s) ++ [exit_callback err]).
Proof.
  induction ls as [|l ls IH]; intros s s' Hrd Hrun; cbn [plex.run] in Hrun.
  - injection Hrun as <-. exists []. left. auto.
  - destruct (step' l s) as [s1|] eqn:Hs; [|discriminate].
    pose proof (step_read _ _ _ Hs) as H.
    destruct l as [[err|notif]| | | | | |].
    3-8: destruct H as (Hiff & Hcb);
      destruct (IH s1 s' (proj1 Hiff Hrd) Hrun)
        as (frames & [(A & B & C)|(err & A & B & C)]);
      exists frames; [left|right; exists err];
      cbn [read_results]; rewrite C, Hcb; auto.
    + destruct H as (_ & Hrd1 & Hcb).
      destruct (run_read_returned ls s1 s' Hrd1 Hrun) as (A & B & C).
      exists []. right. exists err. cbn [read_results map app].
      rewrite A, C, Hcb. auto.
    + destruct H as (_ & Hrd1 & Hcb).
      destruct (IH s1 s' Hrd1 Hrun) as (frames & [(A & B & C)|(err & A & B & C)]);
        exists (notif :: frames); [left|right; exists err];
        cbn [read_results map app]; rewrite B, C, Hcb; auto.
Qed.

(** X8.  The read loop reads frames until a read returns an error, and
    nothing after it: in every run of a session the reads returned frames
    only and the read goroutine is in its loop, having invoked no callback,
    or they returned frames and then one error, the read goroutine has left
    its loop, and its one callback is [doneCb] when that error is a close
    error with the normal-closure code and [errCb] on that error otherwise
    (a frame that does not decode included). *)
Theorem read_loop_ends_at_first_error p w s0 ls s' :
  Subscribe' p w = Spawned s0 ->
  run' ls s0 = Some s' ->
  exists frames,
    (rd s' = RLoop /\ read_results ls = map inr frames
     /\ callbacks_by ReadTask (trace s') = [])
    \/ (exists err,
          rd s' <> RLoop /\ read_results ls = map inr frames ++ [inl err]
          /\ callbacks_by ReadTask (trace s') = [exit_callback err]).
Proof.
  intros Hsub Hrun.
  destruct (spawned_start errCb url_Parse url_String Dial _ _ _ Hsub)
    as (Hrd0 & _ & _ & u & h & Htr0).
  destruct (run_read_loop ls s0 s' Hrd0 Hrun) as (frames & H).
  rewrite Htr0 in H. cbn in H. exists frames. exact H.
Qed.






End MoreSessionFacts.

Section UnhookedFrames.

Context {World : Type}.

(** X6.  With a table made through the exported functions, a frame whose
    type is neither ["playing"] nor ["transcodeSession.update"] has no
    effect on the caller: the iteration leaves the caller's state as it is,
    invokes no callback and stays in the loop, whether the type is one of
    the other twelve kinds or unknown. *)
Theorem unhooked_frame_is_silent (rs : list (@Registration World)) errCb doneCb
        (s : @Session World) (notif : WebsocketNotification) :
  Type_ (container notif) <> "playing" ->
  Type_ (container notif) <> "transcodeSession.update" ->
  let s' := read_iteration (configure rs) errCb doneCb (inr notif) s in
  world s' = world s
  /\ rd s' = rd s
  /\ callbacks_by ReadTask (trace s') = callbacks_by ReadTask (trace s)
  /\ count is_callback (trace s') = count is_callback (trace s).
Proof.
  intros H1 H2.
  unfold read_iteration.
  destruct (configure_other_noop rs _ H1 H2) as [-> | ->];
    unfold call_handler, with_world, log, callbacks_by, count;
    cbn [world rd trace map noop];
    rewrite !List.filter_app; cbn; rewrite !app_nil_r; auto.
Qed.

End UnhookedFrames.

(* ===================================================================== *)
(** * FixedRating *)

Section FixedRatingFacts.

Variable float32 float64 : Type.
Variable json_Unmarshal_float32 : string -> float32 + error.
Variable json_Unmarshal_string : string -> string + error.
Variable strconv_ParseFloat : string -> float64 * option error.
Variable float32_of_float64 : float64 -> float32.

Local Abbreviation UnmarshalJSON' :=
  (FixedRating_UnmarshalJSON float32 float64 json_Unmarshal_float32
     json_Unmarshal_string strconv_ParseFloat float32_of_float64).

(** X12.  [FixedRating.UnmarshalJSON] fails exactly when the data decodes
    neither as a number nor as a string; the error is then the one of the
    decoding as a string, and the receiver keeps its value.  Data that
    decodes as a string never fails, whatever the string holds: the error
    of [ParseFloat] is dropped and the value it returned next to it is
    stored. *)
Theorem FixedRating_UnmarshalJSON_errors (value : float32) (data : string) :
  let result :=
    FixedRating_UnmarshalJSON float32 float64 json_Unmarshal_float32
      json_Unmarshal_string strconv_ParseFloat float32_of_float64 value data in
  (forall err,
     snd result = Some err <->
     (exists e, json_Unmarshal_float32 data = inr e)
     /\ json_Unmarshal_string data = inr err)
  /\ (forall err, snd result = Some err -> fst result = value)
  /\ (forall e isString,
        json_Unmarshal_float32 data = inr e ->
        json_Unmarshal_string data = inl isString ->
        result = (float32_of_float64 (fst (strconv_ParseFloat isString)), None))
  /\ (forall f, json_Unmarshal_float32 data = inl f -> result = (f, None)).
Proof.
  cbv zeta. unfold FixedRating_UnmarshalJSON.
  destruct (json_Unmarshal_float32 data) as [f|e].
  - cbn [fst snd]. repeat apply conj.
    + intros err. split; [discriminate|]. intros [[e He] _]. discriminate.
    + discriminate.
    + discriminate.
    + intros f0 [= ->]. reflexivity.
  - destruct (json_Unmarshal_string data) as [isString|err'].
    + destruct (strconv_ParseFloat isString) as [conv perr] eqn:E.
      cbn [fst snd]. repeat apply conj.
      * intros err. split; [discriminate|]. intros [_ H]. discriminate.
      * discriminate.
      * intros e0 s0 _ [= <-]. now rewrite E.
      * discriminate.
    + cbn [fst snd]. repeat apply conj.
      * intros err. split; [intros [= ->]; eauto|].
        intros [_ [= ->]]. reflexivity.
      * reflexivity.
      * intros e0 s0 _ H. discriminate.
      * discriminate.
Qed.

End FixedRatingFacts.

(* ===================================================================== *)
(** * The further properties on the concrete caller *)

Lemma UnmarshalJSON_digits_witness :
  (exists t', Timestamp.UnmarshalJSON (time.Unix 5 0) "007" = (t', None)
              /\ Timestamp.Unix t' = 7)
  /\ Timestamp.UnmarshalJSON (time.Unix 5 0) "+9223372036854775808"
     = (time.Unix 5 0, Some ErrRange)
  /\ (exists t', Timestamp.UnmarshalJSON (time.Unix 5 0) "-9223372036854775808"
                 = (t', None)
                 /\ Timestamp.Unix t' = -9223372036854775808).
Proof.
  split; [|split].
  - exact (proj1 (UnmarshalJSON_digits (time.Unix 5 0) "007" eq_refl)
             "007" (or_introl eq_refl)).
  - exact (proj1 (UnmarshalJSON_digits (time.Unix 5 0) "9223372036854775808" eq_refl)
             "+9223372036854775808" (or_intror eq_refl)).
  - exact (proj2 (UnmarshalJSON_digits (time.Unix 5 0) "9223372036854775808" eq_refl)).
Defined.

Lemma MarshalJSON_same_bytes_witness :
  fst (Timestamp.MarshalJSON {| time.wall := 999; time.ext := 63000000000;
                                time.loc := time.UTC |})
  = fst (Timestamp.MarshalJSON {| time.wall := 0; time.ext := 63000000000;
                                  time.loc := time.Local |}).
Proof.
  apply (proj2 (MarshalJSON_same_bytes _ _)). reflexivity.
Defined.

Lemma configured_table_witness :
  events (configure demo.registrations) !! "playing" = Some demo.onPlaying
  /\ events (configure demo.registrations) !! "timeline"
     = events (@NewNotificationEvents demo.World) !! "timeline".
Proof.
  destruct (configured_table demo.registrations) as (Hp & _ & _ & Hother & _).
  split; [exact Hp|]. apply Hother; discriminate.
Defined.

Lemma unhooked_frame_is_silent_witness :
  world (read_iteration (configure demo.registrations) demo.errCb demo.doneCb
           (inr (demo.frame "timeline")) demo.started) = []
  /\ rd (read_iteration (configure demo.registrations) demo.errCb demo.doneCb
           (inr (demo.frame "timeline")) demo.started) = RLoop.
Proof.
  destruct (unhooked_frame_is_silent demo.registrations demo.errCb demo.doneCb
              demo.started (demo.frame "timeline")
              ltac:(discriminate) ltac:(discriminate)) as (Hw & Hrd & _).
  split; [exact Hw|exact Hrd].
Defined.


Lemma read_loop_ends_at_first_error_witness :
  exists s' frames,
    demo_run demo.clean_shutdown demo.started = Some s'
    /\ ((rd s' = RLoop /\ read_results demo.clean_shutdown = map inr frames
         /\ callbacks_by ReadTask (trace s') = [])
        \/ (exists err,
              rd s' <> RLoop
              /\ read_results demo.clean_shutdown = map inr frames ++ [inl err]
              /\ callbacks_by ReadTask (trace s') = [exit_callback err])).
Proof.
  eexists.
  destruct (read_loop_ends_at_first_error demo.events_ demo.errCb demo.doneCb
              demo.url_Parse demo.url_String demo.Dial demo.server []
              demo.started demo.clean_shutdown _ demo_started
              ltac:(vm_compute; reflexivity)) as (frames & H).
  exists frames. split; [vm_compute; reflexivity|exact H].
Defined.



Lemma done_closed_once_witness :
  exists s', demo_run demo.silent_peer demo.started = Some s'
             /\ count is_close_done (trace s') = 1%nat
             /\ count is_ticker_stop (trace s') = 1%nat.
Proof.
  eexists. split; [vm_compute; reflexivity|].
  destruct (done_closed_once demo.events_ demo.errCb demo.doneCb
              demo.url_Parse demo.url_String demo.Dial demo.server []
              demo.started demo.silent_peer _ demo_started
              ltac:(vm_compute; reflexivity)) as (Hd & _ & _ & Ht).
  split; [exact Hd|exact Ht].
Defined.

Lemma FixedRating_UnmarshalJSON_errors_witness :
  FixedRating_UnmarshalJSON Z Z demo.decode_number demo.decode_string
    demo.parse_float (fun x => x) 5 demo.quoted_abc = (0, None)
  /\ FixedRating_UnmarshalJSON Z Z demo.decode_number demo.decode_string
       demo.parse_float (fun x => x) 5 "42" = (42, None)
  /\ fst (FixedRating_UnmarshalJSON Z Z demo.decode_number demo.decode_string
            demo.parse_float (fun x => x) 5 "true") = 5.
Proof.
  split; [|split].
  - destruct (FixedRating_UnmarshalJSON_errors Z Z demo.decode_number
                demo.decode_string demo.parse_float (fun x => x) 5 demo.quoted_abc)
      as (_ & _ & Hs & _).
    exact (Hs _ "abc" eq_refl eq_refl).
  - destruct (FixedRating_UnmarshalJSON_errors Z Z demo.decode_number
                demo.decode_string demo.parse_float (fun x => x) 5 "42")
      as (_ & _ & _ & Hf).
    exact (Hf 42 eq_refl).
  - destruct (FixedRating_UnmarshalJSON_errors Z Z demo.decode_number
                demo.decode_string demo.parse_float (fun x => x) 5 "true")
      as (_ & He & _).
    exact (He (OtherError "json: cannot unmarshal into Go value of type string")
             eq_refl).
Defined.
